(** * dns_llm_server.py: a DNS TXT front end for a streaming text backend

    A shallow embedding of [dns_llm_server.py] and the properties of its
    rate limiter, its stream producer, its deadline-bounded consumer and its
    TXT chunker.

    Conventions of the embedding:
    - a Python [str] is the list of its Unicode code points ([list N]);
      [len] is [length], [+] and ["".join] are [++] and [concat], slices
      are [take]/[drop];
    - [time.time()] readings and token counts are exact rationals ([Q])
      in [rate_limit_allow], and binary64 numbers, as in Python, in
      [rate_limit_allow_b64];
    - the module-level dict [_BUCKETS] is a [gmap] threaded through
      [rate_limit_allow];
    - what the environment does (the HTTP backend, the clock, the queue
      filled by the worker thread) is given to a function as a script of
      the results of the calls the code makes, in the order it makes them. *)

From Stdlib Require Import Ascii String QArith Qminmax Lqa.
From Stdlib Require Import PrimFloat SpecFloat FloatOps FloatAxioms.
From stdpp Require Import gmap list strings pretty sorting.

Local Open Scope nat_scope.

(** ** Python strings *)

Abbreviation pystr := (list N).

(** A literal without non-ASCII characters. *)
Definition str (s : string) : pystr :=
  (λ a, N_of_ascii a) <$> list_ascii_of_string s.

(** [s[i:j]] for [0 <= i <= j]; indices past the end are clamped. *)
Definition slice {A} (s : list A) (i j : nat) : list A := take (j - i) (drop i s).

(** [s[:-k]] for [k > 0]. *)
Definition drop_last {A} (k : nat) (s : list A) : list A := take (length s - k) s.

(** [range(start, stop, step)] for [step > 0]. *)
Fixpoint range_from (count start step : nat) : list nat :=
  match count with
  | 0 => []
  | S count' => start :: range_from count' (start + step) step
  end.

Definition range (start stop step : nat) : list nat :=
  range_from ((stop - start + step - 1) / step) start step.

(** [str.encode()]: UTF-8, the encoding dnslib applies to a [str] handed to
    [TXT].  Bytes are numbers below 256. *)
Definition utf8_char (c : N) : list N :=
  (if c <? 0x80 then [c]
   else if c <? 0x800 then
     [N.lor 0xC0 (N.shiftr c 6); N.lor 0x80 (N.land c 0x3F)]
   else if c <? 0x10000 then
     [N.lor 0xE0 (N.shiftr c 12);
      N.lor 0x80 (N.land (N.shiftr c 6) 0x3F);
      N.lor 0x80 (N.land c 0x3F)]
   else
     [N.lor 0xF0 (N.shiftr c 18);
      N.lor 0x80 (N.land (N.shiftr c 12) 0x3F);
      N.lor 0x80 (N.land (N.shiftr c 6) 0x3F);
      N.lor 0x80 (N.land c 0x3F)])%N.

Definition encode (s : pystr) : list N := s ≫= utf8_char.

(** ** Configuration (lines 26-42) *)

Definition TTL : nat := 60.
Definition MAX_CHARS : nat := 500.
Definition DOMAIN : pystr := str ".mashb1t.de".
Definition TOKENS_PER_MIN : Q := 60.

(** ** [split_txt] (lines 114-118) *)

Definition split_txt (txt : pystr) : list pystr :=
  match (λ i, slice txt i (i + 255)) <$> range 0 (length txt) 255 with
  | [] => [[]]
  | chunks => chunks
  end.

(** ** The rate limiter (lines 41-55) *)

(** [_BUCKETS]: ip -> (tokens, last_ts). *)
Abbreviation buckets := (gmap pystr (Q * Q)).

(** [rate_limit_allow ip], with the reading [now] of [time.time()] as an
    argument and [_BUCKETS] passed in and out. *)
Definition rate_limit_allow (now : Q) (ip : pystr) (_BUCKETS : buckets)
  : bool * buckets :=
  let '(tokens, ts) := default (TOKENS_PER_MIN, now) (_BUCKETS !! ip) in
  let tokens := Qmin TOKENS_PER_MIN (tokens + (now - ts) * (TOKENS_PER_MIN / 60))%Q in
  if Qlt_le_dec tokens 1
  then (false, <[ip := (tokens, now)]> _BUCKETS)
  else (true, <[ip := ((tokens - 1)%Q, now)]> _BUCKETS).

(** A sequence of calls, each with the client key and the clock reading
    it sees; the answers come back in order with the final table. *)
Fixpoint rate_limit_calls (calls : list (pystr * Q)) (_BUCKETS : buckets)
  : list bool * buckets :=
  match calls with
  | [] => ([], _BUCKETS)
  | (ip, now) :: calls' =>
      let '(ok, _BUCKETS') := rate_limit_allow now ip _BUCKETS in
      let '(oks, _BUCKETS'') := rate_limit_calls calls' _BUCKETS' in
      (ok :: oks, _BUCKETS'')
  end.

(** The clock never runs backwards over a sequence of readings. *)
Definition nondecreasing (readings : list Q) : Prop := StronglySorted Qle readings.

(** The token count of a bucket lies between 0 and the capacity. *)
Definition tokens_in_range (bucket : Q * Q) : Prop :=
  (0 <= bucket.1 ∧ bucket.1 <= TOKENS_PER_MIN)%Q.

(** What holds of [_BUCKETS] between calls, when the last reading of the
    clock was [now]: tokens in range and no bucket stamped in the future. *)
Definition buckets_inv (now : Q) (_BUCKETS : buckets) : Prop :=
  ∀ ip tokens ts, _BUCKETS !! ip = Some (tokens, ts) →
    tokens_in_range (tokens, ts) ∧ (ts <= now)%Q.

(** The answers that the calls of [ip] get, out of the answers [oks] to
    the whole sequence [calls]. *)
Fixpoint answers_to (ip : pystr) (calls : list (pystr * Q)) (oks : list bool)
  : list bool :=
  match calls, oks with
  | (ip', _) :: calls', ok :: oks' =>
      if decide (ip' = ip)
      then ok :: answers_to ip calls' oks'
      else answers_to ip calls' oks'
  | _, _ => []
  end.

(** ** The rate limiter in binary64 (lines 46-55 as Python computes them) *)

(** [time.time()] returns a binary64 number, and lines 50-54 add, subtract,
    multiply and compare in binary64.  [rate_limit_allow_b64] is
    [rate_limit_allow] over the machine's numbers: [60%float] is the [int]
    [TOKENS_PER_MIN] converted for the arithmetic, [60 / 60] is
    [TOKENS_PER_MIN / 60], and [min(TOKENS_PER_MIN, x)] returns [x] when
    [x < TOKENS_PER_MIN] and [TOKENS_PER_MIN] otherwise. *)
Abbreviation buckets64 := (gmap pystr (float * float)).

Definition rate_limit_allow_b64 (now : float) (ip : pystr) (_BUCKETS : buckets64)
  : bool * buckets64 :=
  let '(tokens, ts) := default (60%float, now) (_BUCKETS !! ip) in
  let refill := (tokens + (now - ts) * (60 / 60))%float in
  let tokens := if (refill <? 60)%float then refill else 60%float in
  if (tokens <? 1)%float
  then (false, <[ip := (tokens, now)]> _BUCKETS)
  else (true, <[ip := ((tokens - 1)%float, now)]> _BUCKETS).

Fixpoint rate_limit_calls_b64 (calls : list (pystr * float)) (_BUCKETS : buckets64)
  : list bool * buckets64 :=
  match calls with
  | [] => ([], _BUCKETS)
  | (ip, now) :: calls' =>
      let '(ok, _BUCKETS') := rate_limit_allow_b64 now ip _BUCKETS in
      let '(oks, _BUCKETS'') := rate_limit_calls_b64 calls' _BUCKETS' in
      (ok :: oks, _BUCKETS'')
  end.

(** The answers that the calls of [ip] get, and the readings they see. *)
Fixpoint answers_to_b64 (ip : pystr) (calls : list (pystr * float)) (oks : list bool)
  : list bool :=
  match calls, oks with
  | (ip', _) :: calls', ok :: oks' =>
      if decide (ip' = ip)
      then ok :: answers_to_b64 ip calls' oks'
      else answers_to_b64 ip calls' oks'
  | _, _ => []
  end.

Definition readings_of (ip : pystr) (calls : list (pystr * float)) : list float :=
  (filter (λ call, call.1 = ip) calls).*2.

(** The value of a binary64 number, counted in ticks of 2^-1074 (the
    smallest positive binary64 number): every finite binary64 number is a
    whole number of ticks. *)
Definition SFticks (x : spec_float) : Z :=
  match x with
  | S754_finite s m e => (if s then Z.neg m else Z.pos m) * 2 ^ (e + 1074)
  | _ => 0
  end.

Definition ticks (x : float) : Z := SFticks (Prim2SF x).

(** The value as a rational (of a finite number). *)
Definition value (x : float) : Q := ticks x # 2 ^ 1074.

(** Zero or finite: not an infinity, not NaN. *)
Definition SFordinary (x : spec_float) : bool :=
  match x with
  | S754_zero _ | S754_finite _ _ _ => true
  | _ => false
  end.

Definition ordinary (x : float) : Prop := SFordinary (Prim2SF x) = true.

(** One second, and one step of the grid of the multiples of 2^-46, in
    ticks. *)
Definition second : Z := 2 ^ 1074.
Definition grain : Z := 2 ^ 1028.

(** A finite number that is a multiple of 2^-46. *)
Definition on_grid (x : float) : Prop := ordinary x ∧ (grain | ticks x)%Z.

(** A mantissa and an exponent in the form binary64 stores them. *)
Definition canonical (m : positive) (e : Z) : Prop :=
  (Z.max (Z.pos (digits2_pos m) + e - 53) (-1074) = e ∧ e ≤ 971)%Z.

(** A clock reading of at least 64 seconds, not infinite.  [time.time()]
    counts from 1970, so that its readings are above 1.7e9. *)
Definition clock_reading (t : float) : Prop :=
  (64 <=? t)%float = true ∧ (t <? infinity)%float = true.

(** The clock never runs backwards over a sequence of readings. *)
Definition nondecreasing_b64 (readings : list float) : Prop :=
  StronglySorted (λ a b, (a <=? b)%float = true) readings.

(** ** The per-question consumer of [DNSHandler.handle] (lines 146-170) *)

(** What [q_out.get(timeout=deadline - time.time())] does in one round of
    the loop. *)
Inductive get_result :=
| Item (item : option pystr)  (* an item: a chunk, or [None] when the stream finished *)
| Empty                       (* [queue.Empty]: nothing came within the timeout *)
| NegativeTimeout.            (* the clock passed the deadline after the loop test:
                                 [get] raises [ValueError], which nothing catches *)

Inductive uncaught := ValueError.

(** The loop of lines 155-163.  [script] has one entry for every round in
    which [time.time() < deadline] holds, saying what [q_out.get] does if
    the round comes to call it; at the end of the script the deadline has
    passed.  The result is [(response_chunks, done)]. *)
Fixpoint collect (script : list get_result) (response_chunks : list pystr)
  : uncaught + (list pystr * bool) :=
  match script with
  | [] => inr (response_chunks, false)
  | got :: script' =>
      if decide (length (concat response_chunks) < MAX_CHARS) then
        match got with
        | Empty => inr (response_chunks, false)
        | NegativeTimeout => inl ValueError
        | Item None => inr (response_chunks, true)
        | Item (Some item) => collect script' (response_chunks ++ [item])
        end
      else inr (response_chunks, false)
  end.

(** Lines 165-170: the text that goes into the TXT record. *)
Definition finalize (response_chunks : list pystr) (done : bool) : pystr :=
  let final := take MAX_CHARS (concat response_chunks) in
  let final :=
    if bool_decide (length final = MAX_CHARS) && negb done
    then drop_last 3 final ++ str "..."
    else final in
  if bool_decide (final = []) then str "Request timed out" else final.

(** The answer to one question: the text [final] and the flag [done] as
    they stand after line 170. *)
Record answer := Answer { content : pystr; complete : bool }.

Definition handle_question (script : list get_result) : uncaught + answer :=
  match collect script [] with
  | inl raised => inl raised
  | inr (response_chunks, done) =>
      inr {| content := finalize response_chunks done; complete := done |}
  end.

(** The rounds in which the chunks [fragments] arrive, one after the other. *)
Definition arrivals (fragments : list pystr) : list get_result :=
  (λ fragment, Item (Some fragment)) <$> fragments.

(** The rounds that end the loop without the end marker, because the
    deadline has passed: the loop test fails, or [get] times out. *)
Definition deadline_stop (script : list get_result) : Prop :=
  script = [] ∨ ∃ script', script = Empty :: script'.

(** [s[-k:]] for [k > 0]: the last [k] characters. *)
Definition last_chars {A} (k : nat) (s : list A) : list A := drop (length s - k) s.

(** ** [llm_stream] (lines 58-95) *)

Definition LLM_MODEL : pystr := str "llama3.2".
Definition LLM_PROTOCOL : pystr := str "http".
Definition LLM_SERVER_IP : pystr := str "127.0.0.1".
Definition LLM_SERVER_PORT : N := 11434.
Definition DEADLINE_SECONDS : nat := 4.

(** Something raised: whether its class derives from [Exception] (what
    [except Exception] catches) and its text [str(err)]. *)
Record raised := Raised { is_Exception : bool; text : pystr }.

(** The arguments of [requests.post]. *)
Record request := Request {
  url : pystr;
  json_model : pystr;
  json_stream : bool;
  json_messages : list (pystr * pystr);  (* role, content *)
  stream : bool;
  timeout : nat
}.

(** A line of the body that parsed: [data.get("message", {}).get("content")]
    (absent: [None]) and the truth of [data.get("done")].  The content,
    when there is one, is a string, as the queue's annotation
    [str | None] has it. *)
Record data := Data { message_content : option pystr; done : bool }.

(** A line as [resp.iter_lines()] yields it: an empty keep-alive line, or
    a line on which [json.loads] and the lookups either raise or give
    [data]. *)
Inductive line :=
| Blank
| Json (parsed : raised + data).

(** The body as the [for] loop meets it: a next line, the end of the
    input, or the read raising (the connection dropped). *)
Inductive body :=
| EndOfInput
| ReadRaises (err : raised)
| Line (l : line) (more : body).

(** What the backend does with the request: [requests.post] raises, or
    there is a response, on which [raise_for_status] raises or not. *)
Inductive response :=
| PostRaises (err : raised)
| Response (status_error : option raised) (lines : body).

(** [out_queue.put(item)]. *)
Definition put (item : option pystr) (out_queue : list (option pystr))
  : list (option pystr) := out_queue ++ [item].

(** The [for] loop of lines 82-89: what was raised, if anything, and the
    queue. *)
Fixpoint iter_lines (lines : body) (out_queue : list (option pystr))
  : option raised * list (option pystr) :=
  match lines with
  | EndOfInput => (None, out_queue)
  | ReadRaises err => (Some err, out_queue)
  | Line Blank more => iter_lines more out_queue
  | Line (Json (inl err)) _ => (Some err, out_queue)
  | Line (Json (inr data)) more =>
      let out_queue :=
        match message_content data with
        | Some chunk =>
            if bool_decide (chunk ≠ []) then put (Some chunk) out_queue else out_queue
        | None => out_queue
        end in
      if done data then (None, out_queue) else iter_lines more out_queue
  end.

(** Lines 72-77 and the arguments of line 80, with the keyword defaults
    of [llm_stream], as the handler starts it. *)
Definition chat_request (prompt : pystr) : request :=
  let url := LLM_PROTOCOL ++ str "://" ++ LLM_SERVER_IP ++ str ":"
             ++ str (pretty LLM_SERVER_PORT) ++ str "/api/chat" in
  {| url := url;
     json_model := LLM_MODEL;
     json_stream := true;
     json_messages := [(str "user", prompt)];
     stream := true;
     timeout := DEADLINE_SECONDS |}.

(** [llm_stream(prompt, out_queue)]; [post] is the backend.  Returns what
    propagates to the caller, if anything, and the queue. *)
Definition llm_stream (post : request → response)
    (prompt : pystr) (out_queue : list (option pystr))
  : option raised * list (option pystr) :=
  (* try *)
  let '(raised, out_queue) :=
    match post (chat_request prompt) with
    | PostRaises err => (Some err, out_queue)
    | Response (Some err) _ => (Some err, out_queue)
    | Response None lines => iter_lines lines out_queue
    end in
  (* except Exception as err *)
  let '(raised, out_queue) :=
    match raised with
    | Some err =>
        if is_Exception err
        then (None, put (Some (str "[llm error] " ++ text err)) out_queue)
        else (Some err, out_queue)
    | None => (None, out_queue)
    end in
  (* finally *)
  (raised, put None out_queue).

(** The chunk a parsed line puts on the queue, if any. *)
Definition chunk_of (d : data) : list pystr :=
  match message_content d with
  | Some chunk => if bool_decide (chunk ≠ []) then [chunk] else []
  | None => []
  end.

(** [body_fault lines chunks err]: reading [lines], the loop puts [chunks]
    and then meets the fault [err] (the read fails, or a line is
    malformed), no line before it having said [done]. *)
Inductive body_fault : body → list pystr → raised → Prop :=
| fault_read err :
    body_fault (ReadRaises err) [] err
| fault_malformed err more :
    body_fault (Line (Json (inl err)) more) [] err
| fault_after_blank more chunks err :
    body_fault more chunks err →
    body_fault (Line Blank more) chunks err
| fault_after_data d more chunks err :
    done d = false →
    body_fault more chunks err →
    body_fault (Line (Json (inr d)) more) (chunk_of d ++ chunks) err.

(** [backend_fault r chunks err]: the request meets the fault [err]
    (connection error, non-success status, or a fault in the body) after
    [chunks] were put. *)
Inductive backend_fault : response → list pystr → raised → Prop :=
| fault_connection err :
    backend_fault (PostRaises err) [] err
| fault_status err lines :
    backend_fault (Response (Some err) lines) [] err
| fault_body lines chunks err :
    body_fault lines chunks err →
    backend_fault (Response None lines) chunks err.

(** ** The prompt (lines 24, 98-111) *)

(** [s.rstrip(c)] for a one-character [c]. *)
Fixpoint rstrip (c : N) (s : pystr) : pystr :=
  match s with
  | [] => []
  | x :: s' =>
      match rstrip c s' with
      | [] => if (x =? c)%N then [] else [x]
      | stripped => x :: stripped
      end
  end.

(** [s.endswith(suffix)]. *)
Definition endswith (s suffix : pystr) : bool :=
  bool_decide (length suffix ≤ length s ∧ drop (length s - length suffix) s = suffix).

(** [s.removesuffix(suffix)]. *)
Definition removesuffix (s suffix : pystr) : pystr :=
  if bool_decide (suffix ≠ []) && endswith s suffix
  then take (length s - length suffix) s
  else s.

Section prompt.

(** The value of a decimal digit.  In a [str] pattern [\d] matches the
    characters of Unicode category Nd, and [int] reads them; the table of
    these characters is Python's, and the embedding takes it as this
    function. *)
Variable decimal_digit : N → option N.

(** [_oct_re.sub(lambda m: chr(int(m.group(1))), label)] with
    [_oct_re = re.compile(r"\\(\d{3})")]: from left to right, a backslash
    followed by three digits becomes the character with that (decimal)
    number; 92 is the backslash. *)
Fixpoint dns_unescape (label : pystr) : pystr :=
  match label with
  | [] => []
  | c :: tail =>
      if (c =? 92)%N then
        match tail with
        | d1 :: d2 :: d3 :: rest =>
            match decimal_digit d1, decimal_digit d2, decimal_digit d3 with
            | Some n1, Some n2, Some n3 =>
                (100 * n1 + 10 * n2 + n3)%N :: dns_unescape rest
            | _, _, _ => c :: dns_unescape tail
            end
        | _ => c :: dns_unescape tail
        end
      else c :: dns_unescape tail
  end.

Definition dns_safe_prompt (raw_name : pystr) : pystr :=
  let name := removesuffix (rstrip 46 raw_name) DOMAIN in
  let prompt := dns_unescape name in
  str "Answer in " ++ str (pretty MAX_CHARS)
  ++ str " characters or less, no markdown formatting: " ++ prompt.

End prompt.

(** The digits of ASCII, which every table of decimal digits holds. *)
Definition ascii_digits (decimal_digit : N → option N) : Prop :=
  ∀ d, (d < 10)%N → decimal_digit (48 + d)%N = Some d.

(** ** Notions used to state further properties *)

(** The tokens a bucket holds once line 50 has refilled it at [now]; a
    client without a bucket starts from a full one. *)
Definition refilled (now : Q) (bucket : option (Q * Q)) : Q :=
  let '(tokens, ts) := default (TOKENS_PER_MIN, now) bucket in
  Qmin TOKENS_PER_MIN (tokens + (now - ts) * (TOKENS_PER_MIN / 60))%Q.

(** [body_clean lines chunks]: reading [lines], the loop puts [chunks] and
    ends without a fault: at the end of the input, or at the first line
    that says [done], whatever comes after that line. *)
Inductive body_clean : body → list pystr → Prop :=
| clean_end :
    body_clean EndOfInput []
| clean_done d more :
    done d = true →
    body_clean (Line (Json (inr d)) more) (chunk_of d)
| clean_after_blank more chunks :
    body_clean more chunks →
    body_clean (Line Blank more) chunks
| clean_after_data d more chunks :
    done d = false →
    body_clean more chunks →
    body_clean (Line (Json (inr d)) more) (chunk_of d ++ chunks).

(** The rounds in which the consumer gets every item of the queue, in
    order and before the deadline. *)
Definition delivered (out_queue : list (option pystr)) : list get_result :=
  Item <$> out_queue.

(** The instruction that line 111 puts before the cleaned name. *)
Definition instruction : pystr :=
  str "Answer in " ++ str (pretty MAX_CHARS)
  ++ str " characters or less, no markdown formatting: ".

(** ** [DNSHandler.handle] (lines 121-181) *)

(** A question of the parsed message, by what the handler reads of it: the
    name as [str(q.qname)] writes it, and the number [q.qtype]. *)
Record question := Question { qname : pystr; qtype : N }.

(** The parsed message: [req.header.id] and [req.questions]. *)
Record dns_record := DNSRecord { header_id : N; questions : list question }.

(** An answer record as lines 172-178 build it. *)
Record rr := RR {
  rname : pystr;
  rtype : N;
  rclass : N;
  ttl : nat;
  rdata : list pystr
}.

(** The reply as lines 137, 138 and 179 build it. *)
Record dns_reply := DNSReply {
  reply_id : N;
  qr : N;
  aa : N;
  ra : N;
  reply_questions : list question;
  answers : list rr
}.

Section handle.

(** dnslib's table of record types: [QTYPE[n]] is the name of type [n],
    and [QTYPE.TXT] the number of the type named "TXT". *)
Variable QTYPE : N → pystr.
Variable QTYPE_TXT : N.

Variable decimal_digit : N → option N.

(** The rounds of the loop of lines 155-163 for the question at position
    [i] of the message, its worker started with the given prompt. *)
Variable rounds : nat → pystr → list get_result.

(** The [for] loop of lines 140-179 from position [i] on: the answers
    added to the reply, unless [q_out.get] raises at some question. *)
Fixpoint answer_questions (i : nat) (qs : list question) : uncaught + list rr :=
  match qs with
  | [] => inr []
  | q :: qs' =>
      if bool_decide (QTYPE (qtype q) ≠ str "TXT") then answer_questions (S i) qs'
      else
        let prompt := dns_safe_prompt decimal_digit (qname q) in
        match handle_question (rounds i prompt) with
        | inl raised => inl raised
        | inr a =>
            let txt_rr := {| rname := qname q; rtype := QTYPE_TXT; rclass := 1;
                             ttl := TTL; rdata := split_txt (content a) |} in
            match answer_questions (S i) qs' with
            | inl raised => inl raised
            | inr rrs => inr (txt_rr :: rrs)
            end
        end
  end.

(** [handle]: [parsed] is what [DNSRecord.parse(data)] gives ([None] when
    it raises), [src_ip] the client address and [now] the clock reading
    of the rate limiter.  The result is what propagates, or the reply
    that line 181 packs and sends ([None]: the handler returns without
    sending), and [_BUCKETS]. *)
Definition handle (parsed : option dns_record) (src_ip : pystr) (now : Q)
    (_BUCKETS : buckets) : (uncaught + option dns_reply) * buckets :=
  let '(allowed, _BUCKETS) := rate_limit_allow now src_ip _BUCKETS in
  if negb allowed then (inr None, _BUCKETS)
  else
    match parsed with
    | None => (inr None, _BUCKETS)
    | Some req =>
        match questions req with
        | [] => (inr None, _BUCKETS)
        | first :: _ =>
            match answer_questions 0 (questions req) with
            | inl raised => (inl raised, _BUCKETS)
            | inr rrs =>
                (inr (Some {| reply_id := header_id req; qr := 1; aa := 1; ra := 0;
                              reply_questions := [first]; answers := rrs |}),
                 _BUCKETS)
            end
        end
    end.

End handle.

(** The fixed fields of an answer record (lines 174-176). *)
Definition txt_record (QTYPE_TXT : N) (r : rr) : Prop :=
  rtype r = QTYPE_TXT ∧ rclass r = 1%N ∧ ttl r = TTL.

(** The strings of an answer record fit: one or two of them, none longer
    than 255 characters, holding between 1 and [MAX_CHARS] characters
    together. *)
Definition rdata_fits (r : rr) : Prop :=
  1 ≤ length (rdata r) ≤ 2
  ∧ Forall (λ segment, length segment ≤ 255) (rdata r)
  ∧ 0 < length (concat (rdata r)) ≤ MAX_CHARS.

(** A message used to exercise the handler: a TXT question under the
    domain and a question of another type, answered by a worker whose two
    chunks and end marker arrive in time. *)
Definition sample_QTYPE (n : N) : pystr :=
  if (n =? 16)%N then str "TXT" else str "A".

Definition sample_digit (c : N) : option N :=
  if ((48 <=? c) && (c <=? 57))%N then Some (c - 48)%N else None.

Definition sample_rounds (i : nat) (prompt : pystr) : list get_result :=
  [Item (Some (str "DNS maps ")); Item (Some (str "names.")); Item None].

Definition sample_message : dns_record :=
  {| header_id := 4660;
     questions := [Question (str "what\032is\032dns.mashb1t.de.") 16;
                   Question (str "mashb1t.de.") 1] |}.

Definition sample_reply : dns_reply :=
  {| reply_id := 4660; qr := 1; aa := 1; ra := 0;
     reply_questions := [Question (str "what\032is\032dns.mashb1t.de.") 16];
     answers := [{| rname := str "what\032is\032dns.mashb1t.de.";
                    rtype := 16; rclass := 1; ttl := 60;
                    rdata := [str "DNS maps names."] |}] |}.

(** ** Properties of [split_txt] *)

Section split_txt_facts.

Lemma range_from_slices (txt : pystr) (n i : nat) :
  concat ((λ i, slice txt i (i + 255)) <$> range_from n i 255)
  = take (n * 255) (drop i txt).
Proof.
  revert i. induction n as [|n IH]; intros i; simpl.
  - by rewrite take_0.
  - rewrite IH. unfold slice.
    replace (i + 255 - i) with 255 by lia.
    rewrite <- (drop_drop txt 255 i).
    by rewrite take_take_drop.
Qed.

Lemma range_covers (len : nat) : len ≤ (len - 0 + 255 - 1) / 255 * 255.
Proof.
  pose proof (Nat.div_mod_eq (len - 0 + 255 - 1) 255) as E.
  pose proof (Nat.mod_upper_bound (len - 0 + 255 - 1) 255). lia.
Qed.

Lemma split_txt_chunks (txt : pystr) :
  txt ≠ [] →
  split_txt txt = (λ i, slice txt i (i + 255)) <$> range 0 (length txt) 255.
Proof.
  intros Hne. unfold split_txt.
  destruct (_ <$> _) as [|c cs] eqn:E; [|done].
  exfalso. apply Hne.
  pose proof (range_from_slices txt ((length txt - 0 + 255 - 1) / 255) 0) as H.
  fold (range 0 (length txt) 255) in H. rewrite E in H. simpl in H.
  symmetry in H. rewrite drop_0 in H.
  rewrite take_ge in H by apply range_covers. done.
Qed.

End split_txt_facts.

(** C2. Joining the segments of [split_txt text] gives back [text], and the
    empty text is split into exactly one empty segment. *)
Theorem split_txt_concat_roundtrip :
  (∀ text : pystr, concat (split_txt text) = text)
  ∧ split_txt [] = [[]].
Proof.
  split; [|reflexivity].
  intros text. destruct (decide (text = [])) as [->|Hne]; [reflexivity|].
  rewrite split_txt_chunks by done. unfold range.
  rewrite range_from_slices, drop_0.
  apply take_ge, range_covers.
Qed.

(** What the slicing does bound: the number of characters of a segment. *)
Lemma split_txt_segment_chars (text seg : pystr) :
  seg ∈ split_txt text → length seg ≤ 255.
Proof.
  unfold split_txt. intros Hin.
  destruct (_ <$> _) as [|c cs] eqn:E.
  - apply list_elem_of_singleton in Hin as ->. simpl. lia.
  - rewrite <- E in Hin. apply list_elem_of_fmap in Hin as (i & -> & _).
    unfold slice. rewrite length_take. lia.
Qed.

Lemma split_txt_segment_sublist (text seg : pystr) (c : N) :
  seg ∈ split_txt text → c ∈ seg → c ∈ text.
Proof.
  unfold split_txt. intros Hin Hc.
  destruct (_ <$> _) as [|c0 cs] eqn:E.
  - apply list_elem_of_singleton in Hin as ->. by apply elem_of_nil in Hc.
  - rewrite <- E in Hin. apply list_elem_of_fmap in Hin as (i & -> & _).
    unfold slice in Hc.
    eapply subseteq_drop, subseteq_take, Hc.
Qed.

Lemma encode_ascii_length (s : pystr) :
  Forall (λ c, (c < 0x80)%N) s → length (encode s) = length s.
Proof.
  unfold encode. induction 1 as [|c s Hc _ IH]; [done|].
  rewrite bind_cons, length_app, IH. unfold utf8_char.
  apply N.ltb_lt in Hc. by rewrite Hc.
Qed.

(** X2. On text of one-byte characters the segments are within the 255 bytes
    a TXT character-string may hold. *)
Lemma split_txt_ascii_segment_bytes (text seg : pystr) :
  Forall (λ c, (c < 0x80)%N) text →
  seg ∈ split_txt text → length (encode seg) ≤ 255.
Proof.
  intros Hascii Hin. rewrite encode_ascii_length.
  - by eapply split_txt_segment_chars.
  - apply Forall_forall. intros c Hc.
    rewrite Forall_forall in Hascii.
    eauto using split_txt_segment_sublist.
Qed.

(** C3. [split_txt] cuts every 255 characters, not every 255 bytes: a text
    of 255 euro signs (U+20AC, three bytes each in UTF-8) comes back as one
    segment, whose encoded form has 765 bytes.  The docstring of
    [split_txt] promises chunks of at most 255 bytes. *)
Theorem split_txt_multibyte_segment_over_255_bytes :
  let text := replicate 255 0x20AC%N in
  split_txt text = [text] ∧ length (encode text) = 765.
Proof. vm_compute. done. Qed.

(** ** Properties of the rate limiter *)

Section rate_limiter_facts.
Local Open Scope Q_scope.

Lemma refill_rate : TOKENS_PER_MIN / 60 == 1.
Proof. reflexivity. Qed.

(** The body of [rate_limit_allow] once the bucket read at line 48 is known. *)
Lemma rate_limit_allow_eq (now : Q) (ip : pystr) (b : buckets) (tokens ts : Q) :
  default (TOKENS_PER_MIN, now) (b !! ip) = (tokens, ts) →
  rate_limit_allow now ip b
  = if Qlt_le_dec (Qmin TOKENS_PER_MIN (tokens + (now - ts) * (TOKENS_PER_MIN / 60))) 1
    then (false, <[ip := (Qmin TOKENS_PER_MIN (tokens + (now - ts) * (TOKENS_PER_MIN / 60)), now)]> b)
    else (true, <[ip := (Qmin TOKENS_PER_MIN (tokens + (now - ts) * (TOKENS_PER_MIN / 60)) - 1, now)]> b).
Proof. intros Hread. unfold rate_limit_allow. by rewrite Hread. Qed.

Lemma refill_bounds (tokens ts now : Q) :
  0 <= tokens → ts <= now →
  let refilled := Qmin TOKENS_PER_MIN (tokens + (now - ts) * (TOKENS_PER_MIN / 60)) in
  0 <= refilled ∧ refilled <= TOKENS_PER_MIN.
Proof.
  intros Htok Hts. simpl. rewrite refill_rate. unfold TOKENS_PER_MIN. split.
  - apply Q.min_glb; lra.
  - apply Q.le_min_l.
Qed.

Lemma rate_limit_allow_inv (now now' : Q) (ip : pystr) (b : buckets) :
  buckets_inv now b → now <= now' →
  buckets_inv now' (rate_limit_allow now' ip b).2.
Proof.
  intros Hinv Hclock.
  assert (∃ tokens ts, default (TOKENS_PER_MIN, now') (b !! ip) = (tokens, ts)
            ∧ 0 <= tokens ∧ ts <= now') as (tokens & ts & Hdef & Htok & Hts).
  { destruct (b !! ip) as [[tokens ts]|] eqn:E; simpl.
    - destruct (Hinv _ _ _ E) as [[? ?] ?]. exists tokens, ts.
      split_and!; [done|done|lra].
    - exists TOKENS_PER_MIN, now'. unfold TOKENS_PER_MIN. split_and!; [done|lra|lra]. }
  unfold rate_limit_allow. rewrite Hdef.
  destruct (refill_bounds tokens ts now' Htok Hts) as [Hlo Hhi].
  set (refilled := Qmin _ _) in *. unfold TOKENS_PER_MIN in Hhi.
  assert (∀ ip' tokens' ts', b !! ip' = Some (tokens', ts') →
            tokens_in_range (tokens', ts') ∧ ts' <= now') as Hold.
  { intros ip' tokens' ts' E. destruct (Hinv _ _ _ E). split; [done|lra]. }
  destruct (Qlt_le_dec refilled 1) as [Hdeny|Hallow]; simpl;
    intros ip' tokens' ts' Hlook;
    (destruct (decide (ip = ip')) as [->|Hne];
     [rewrite lookup_insert_eq in Hlook; injection Hlook as <- <-
     |rewrite lookup_insert_ne in Hlook by done; eauto]);
    unfold tokens_in_range, TOKENS_PER_MIN; simpl; split_and!; lra.
Qed.

Lemma rate_limit_calls_inv (calls : list (pystr * Q)) (now : Q) (b : buckets) :
  buckets_inv now b →
  nondecreasing (now :: calls.*2) →
  ∃ now', buckets_inv now' (rate_limit_calls calls b).2.
Proof.
  revert now b. induction calls as [|[ip t] calls IH]; intros now b Hinv Hsorted.
  - by exists now.
  - simpl in *. apply StronglySorted_inv in Hsorted as [Htail Hhead].
    apply Forall_cons in Hhead as [Hnow _].
    pose proof (rate_limit_allow_inv now t ip b Hinv Hnow) as Hstep.
    destruct (rate_limit_allow t ip b) as [ok b'].
    destruct (IH t b' Hstep Htail) as [now' Hfinal].
    destruct (rate_limit_calls calls b') as [oks b'']. by exists now'.
Qed.

(** Calls of other clients leave a client's bucket alone. *)
Lemma rate_limit_allow_other (now : Q) (ip ip' : pystr) (b : buckets) :
  ip ≠ ip' → (rate_limit_allow now ip b).2 !! ip' = b !! ip'.
Proof.
  intros Hne. unfold rate_limit_allow.
  destruct (default _ _) as [tokens ts].
  destruct (Qlt_le_dec _ _); simpl; by rewrite lookup_insert_ne.
Qed.

(** The answer to a call and the bucket it leaves depend on the table only
    through the caller's bucket. *)
Lemma rate_limit_allow_same_bucket (now : Q) (ip : pystr) (b b' : buckets) :
  b !! ip = b' !! ip →
  (rate_limit_allow now ip b).1 = (rate_limit_allow now ip b').1
  ∧ (rate_limit_allow now ip b).2 !! ip = (rate_limit_allow now ip b').2 !! ip.
Proof.
  intros Hsame. unfold rate_limit_allow. rewrite Hsame.
  destruct (default _ _) as [tokens ts].
  destruct (Qlt_le_dec _ _); simpl; by rewrite !lookup_insert_eq.
Qed.

(** The calls of other clients, wherever they fall in the sequence, do not
    change the answers a client gets. *)
Lemma rate_limit_calls_other_clients (ip : pystr) (calls : list (pystr * Q)) :
  ∀ b b' : buckets,
  b !! ip = b' !! ip →
  answers_to ip calls (rate_limit_calls calls b).1
  = (rate_limit_calls (filter (λ call, call.1 = ip) calls) b').1.
Proof.
  induction calls as [|[ip' t] calls IH]; intros b b' Hsame; [done|].
  cbn [rate_limit_calls].
  destruct (decide (ip' = ip)) as [->|Hne].
  - rewrite filter_cons_True by done. cbn [rate_limit_calls].
    destruct (rate_limit_allow_same_bucket t ip b b' Hsame) as [Hok Hnext].
    destruct (rate_limit_allow t ip b) as [ok b1].
    destruct (rate_limit_allow t ip b') as [ok' b1'].
    simpl in Hok, Hnext. subst ok'.
    specialize (IH b1 b1' Hnext).
    destruct (rate_limit_calls calls b1) as [oks b2].
    destruct (rate_limit_calls (filter _ calls) b1') as [oks' b2'].
    simpl in *. rewrite decide_True by done. by f_equal.
  - rewrite filter_cons_False by done.
    pose proof (rate_limit_allow_other t ip' ip b Hne) as Hkeep.
    destruct (rate_limit_allow t ip' b) as [ok b1]. simpl in Hkeep.
    specialize (IH b1 b'). rewrite Hkeep in IH. specialize (IH Hsame).
    destruct (rate_limit_calls calls b1) as [oks b2].
    simpl in *. by rewrite decide_False.
Qed.

End rate_limiter_facts.

(** C4. Starting from the empty table, over any sequence of calls to
    [rate_limit_allow] (any keys) whose clock readings never decrease, the
    token count of every bucket is between 0 and [TOKENS_PER_MIN] after
    every call of the sequence. *)
Theorem rate_limit_tokens_within_capacity (calls : list (pystr * Q)) :
  nondecreasing calls.*2 →
  ∀ served rest, calls = served ++ rest →
    map_Forall (λ _ bucket, tokens_in_range bucket) (rate_limit_calls served ∅).2.
Proof.
  intros Hsorted served rest ->.
  rewrite fmap_app in Hsorted.
  apply StronglySorted_app_1_l in Hsorted.
  destruct served as [|[ip t] served].
  - simpl. apply map_Forall_empty.
  - assert (∃ now', buckets_inv now' (rate_limit_calls ((ip, t) :: served) ∅).2)
      as [now' Hinv].
    { apply (rate_limit_calls_inv _ t).
      - intros ? ? ? Hlook. by rewrite lookup_empty in Hlook.
      - simpl. constructor; [done|].
        constructor; [apply Qle_refl|].
        by apply StronglySorted_inv in Hsorted as [_ ?]. }
    intros key [tokens ts] Hlook. by destruct (Hinv _ _ _ Hlook).
Qed.

Lemma rate_limit_tokens_within_capacity_witness :
  let calls := [(str "10.0.0.1", 0%Q); (str "10.0.0.2", (1 # 2)%Q);
                (str "10.0.0.1", 3%Q); (str "10.0.0.1", 3%Q)] in
  nondecreasing calls.*2
  ∧ map_Forall (λ _ bucket, tokens_in_range bucket)
      (rate_limit_calls (take 3 calls) ∅).2.
Proof.
  intros calls.
  assert (nondecreasing calls.*2) as Hsorted.
  { repeat (constructor; [|repeat (constructor; [unfold Qle; simpl; lia|]); constructor]).
    constructor. }
  split; [exact Hsorted|].
  exact (rate_limit_tokens_within_capacity calls Hsorted (take 3 calls) (drop 3 calls)
           eq_refl).
Defined.

(** ** The rate limiter in binary64 *)

(** *** Rounding: sums and differences that binary64 holds are exact *)

Section binary64_rounding.
Local Open Scope Z_scope.

Lemma pow2_pos (a : Z) : 0 ≤ a → 0 < 2 ^ a.
Proof. intros. apply Z.pow_pos_nonneg; lia. Qed.

Lemma pow2_le (a b : Z) : 0 ≤ a → 2 ^ a ≤ 2 ^ b → a ≤ b.
Proof.
  intros Ha Hle. destruct (Z.le_gt_cases a b) as [|Hlt]; [done|]. exfalso.
  destruct (Z.le_gt_cases 0 b).
  - pose proof (Z.pow_lt_mono_r 2 b a). lia.
  - pose proof (pow2_pos a Ha). rewrite (Z.pow_neg_r 2 b) in Hle by done. lia.
Qed.

Lemma digits2_pos_bounds (m : positive) :
  2 ^ (Z.pos (digits2_pos m) - 1) ≤ Z.pos m < 2 ^ Z.pos (digits2_pos m).
Proof.
  induction m as [m IH|m IH|]; cbn [digits2_pos]; [| |simpl; lia].
  all: rewrite Pos2Z.inj_succ.
  all: replace (Z.succ (Z.pos (digits2_pos m)) - 1)
         with (Z.succ (Z.pos (digits2_pos m) - 1)) by lia.
  all: rewrite !Z.pow_succ_r by lia; lia.
Qed.

Lemma Pos_iter_xO (m k : positive) : Z.pos (Pos.iter xO m k) = Z.pos m * 2 ^ Z.pos k.
Proof.
  induction k as [|k IH] using Pos.peano_ind;
    [cbn [Pos.iter]; rewrite Z.pow_1_r; lia|].
  rewrite Pos.iter_succ, Pos2Z.inj_xO, IH, Pos2Z.inj_succ, Z.pow_succ_r by lia. lia.
Qed.

Lemma digits2_pos_iter_xO (m k : positive) :
  Z.pos (digits2_pos (Pos.iter xO m k)) = Z.pos (digits2_pos m) + Z.pos k.
Proof.
  induction k as [|k IH] using Pos.peano_ind.
  - cbn [Pos.iter digits2_pos]. lia.
  - rewrite Pos.iter_succ. cbn [digits2_pos]. lia.
Qed.

Lemma shr_1_double (c : Z) :
  0 ≤ c → shr_1 (Build_shr_record (2 * c) false false) = Build_shr_record c false false.
Proof. by destruct c. Qed.

Lemma iter_shr_1_exact (k : positive) :
  ∀ c : Z, 0 ≤ c →
  SpecFloat.iter_pos shr_1 k (Build_shr_record (c * 2 ^ Z.pos k) false false)
  = Build_shr_record c false false.
Proof.
  induction k as [k IH|k IH|]; intros c Hc; cbn [SpecFloat.iter_pos].
  - replace (c * 2 ^ Z.pos k~1) with (2 * (c * 2 ^ Z.pos k * 2 ^ Z.pos k)).
    + pose proof (pow2_pos (Z.pos k)).
      rewrite shr_1_double, IH, IH; [done|nia..].
    + replace (Z.pos k~1) with (Z.pos k + Z.pos k + 1) by lia.
      rewrite !Z.pow_add_r, Z.pow_1_r by lia. ring.
  - replace (c * 2 ^ Z.pos k~0) with (c * 2 ^ Z.pos k * 2 ^ Z.pos k).
    + pose proof (pow2_pos (Z.pos k)). rewrite IH, IH; [done|nia..].
    + replace (Z.pos k~0) with (Z.pos k + Z.pos k) by lia.
      rewrite Z.pow_add_r by lia. ring.
  - rewrite Z.pow_1_r, Z.mul_comm. by apply shr_1_double.
Qed.

Lemma bounded_canonical (m : positive) (e : Z) :
  bounded prec emax m e = true ↔ canonical m e.
Proof.
  unfold bounded, canonical_mantissa, canonical, fexp, emin, prec, emax.
  rewrite andb_true_iff, Z.eqb_eq, Z.leb_le. done.
Qed.

Lemma canonical_bounds (m : positive) (e : Z) :
  canonical m e →
  -1074 ≤ e ∧ Z.pos m < 2 ^ 53 ∧ (-1074 < e → 2 ^ 52 ≤ Z.pos m).
Proof.
  intros [Hfexp _]. pose proof (digits2_pos_bounds m) as [Hlo Hhi].
  split; [lia|]. split.
  - eapply Z.lt_le_trans; [done|]. apply Z.pow_le_mono_r; lia.
  - intros He. replace (Z.pos (digits2_pos m)) with 53 in Hlo by lia. done.
Qed.

Lemma shr_fexp_canonical (m : positive) (e : Z) :
  canonical m e →
  shr_fexp prec emax (Z.pos m) e loc_Exact = (Build_shr_record (Z.pos m) false false, e).
Proof.
  intros [Hfexp _]. unfold shr_fexp. cbn [Zdigits2 shr_record_of_loc].
  replace (fexp prec emax (Z.pos (digits2_pos m) + e)) with e
    by (unfold fexp, emin, prec, emax; lia).
  by rewrite Z.sub_diag.
Qed.

Lemma binary_round_aux_canonical (s : bool) (m : positive) (e : Z) :
  canonical m e →
  binary_round_aux prec emax s (Z.pos m) e loc_Exact = S754_finite s m e.
Proof.
  intros Hcan. unfold binary_round_aux.
  rewrite shr_fexp_canonical by done.
  cbn [shr_m loc_of_shr_record round_nearest_even].
  rewrite shr_fexp_canonical by done. cbn [shr_m].
  destruct Hcan as [_ Hmax].
  change (emax - prec) with 971. by rewrite (proj2 (Z.leb_le _ _) Hmax).
Qed.

Lemma binary_round_aux_shift (s : bool) (c n : positive) (e : Z) :
  canonical c (e + Z.pos n) →
  binary_round_aux prec emax s (Z.pos (Pos.iter xO c n)) e loc_Exact
  = S754_finite s c (e + Z.pos n).
Proof.
  intros Hcan. pose proof Hcan as [Hfexp Hmax].
  unfold binary_round_aux. unfold shr_fexp at 1.
  cbn [Zdigits2 shr_record_of_loc]. rewrite digits2_pos_iter_xO.
  replace (fexp prec emax (Z.pos (digits2_pos c) + Z.pos n + e)) with (e + Z.pos n)
    by (unfold fexp, emin, prec, emax; lia).
  replace (e + Z.pos n - e) with (Z.pos n) by lia.
  cbn [shr]. rewrite Pos_iter_xO, iter_shr_1_exact by lia.
  cbn [shr_m loc_of_shr_record round_nearest_even].
  rewrite shr_fexp_canonical by done. cbn [shr_m].
  change (emax - prec) with 971. by rewrite (proj2 (Z.leb_le _ _) Hmax).
Qed.

Lemma second_64 : 64 * second = 2 ^ 1080.
Proof. reflexivity. Qed.

Lemma second_grain : second = 2 ^ 46 * grain.
Proof. reflexivity. Qed.

Lemma grain_pos : 0 < grain.
Proof. by apply pow2_pos. Qed.

Lemma pow2_split (a b : Z) : 0 ≤ a ≤ b → 2 ^ b = 2 ^ (b - a) * 2 ^ a.
Proof. intros. rewrite <- Z.pow_add_r by lia. f_equal. lia. Qed.

(** Rounding a number that binary64 holds leaves it as it is: here, a
    multiple of 2^-46 that is at most 64. *)
Lemma binary_round_exact (s : bool) (m : positive) (e : Z) :
  -1074 ≤ e →
  (grain | Z.pos m * 2 ^ (e + 1074)) →
  Z.pos m * 2 ^ (e + 1074) ≤ 64 * second →
  ∃ m' e', binary_round prec emax s m e = S754_finite s m' e'
           ∧ Z.pos m' * 2 ^ (e' + 1074) = Z.pos m * 2 ^ (e + 1074).
Proof.
  intros He [k Hk] Hle.
  pose proof (digits2_pos_bounds m) as [Hlo Hhi].
  unfold binary_round, shl_align.
  set (e1 := fexp prec emax (Z.pos (digits2_pos m) + e)).
  assert (e1 = Z.max (Z.pos (digits2_pos m) + e - 53) (-1074)) as He1
    by (unfold e1, fexp, emin, prec, emax; lia).
  clearbody e1.
  assert (Z.pos (digits2_pos m) + e ≤ 7) as Hde.
  { assert (2 ^ (Z.pos (digits2_pos m) - 1 + (e + 1074)) ≤ 2 ^ 1080) as Hpow.
    { rewrite Z.pow_add_r, <- second_64 by lia.
      etrans; [|exact Hle]. apply Z.mul_le_mono_nonneg_r; [|done].
      pose proof (pow2_pos (e + 1074)). lia. }
    apply pow2_le in Hpow; lia. }
  pose proof (pow2_pos (e + 1074)) as Hpe.
  destruct (e1 - e) as [|p|p] eqn:Hshift.
  - exists m, e. split; [|done]. apply binary_round_aux_canonical. split; lia.
  - assert (∃ c : positive, m = Pos.iter xO c p) as [c ->].
    { assert (0 < k) as Hk0 by (pose proof grain_pos; nia).
      pose proof (pow2_pos (-46 - e1)) as Hq.
      destruct (k * 2 ^ (-46 - e1)) as [|c|c] eqn:Hc; [nia| |nia].
      exists c. apply Pos2Z.inj. rewrite Pos_iter_xO, <- Hc.
      apply (Z.mul_reg_r _ _ (2 ^ (e + 1074))); [lia|]. rewrite Hk.
      unfold grain. rewrite (pow2_split (e1 + 1074) 1028) by lia.
      rewrite (pow2_split (e + 1074) (e1 + 1074)) by lia.
      replace (1028 - (e1 + 1074)) with (-46 - e1) by lia.
      replace (e1 + 1074 - (e + 1074)) with (Z.pos p) by lia. ring. }
    rewrite digits2_pos_iter_xO in He1, Hde.
    exists c, (e + Z.pos p). split.
    + apply binary_round_aux_shift. split; lia.
    + rewrite Pos_iter_xO, (pow2_split (e + 1074) (e + Z.pos p + 1074)) by lia.
      replace (e + Z.pos p + 1074 - (e + 1074)) with (Z.pos p) by lia. ring.
  - exists (Pos.iter xO m p), e1. split.
    + apply binary_round_aux_canonical. split; [rewrite digits2_pos_iter_xO|]; lia.
    + rewrite Pos_iter_xO, (pow2_split (e1 + 1074) (e + 1074)) by lia.
      replace (e + 1074 - (e1 + 1074)) with (Z.pos p) by lia. ring.
Qed.

Lemma binary_normalize_exact (M e : Z) :
  -1074 ≤ e →
  (grain | M * 2 ^ (e + 1074)) →
  Z.abs (M * 2 ^ (e + 1074)) ≤ 64 * second →
  SFordinary (binary_normalize prec emax M e false) = true
  ∧ SFticks (binary_normalize prec emax M e false) = M * 2 ^ (e + 1074).
Proof.
  intros He Hgrid Hle. destruct M as [|m|m]; cbn [binary_normalize]; [done| |].
  - destruct (binary_round_exact false m e) as (m' & e' & -> & Hticks); [done|done|lia|].
    done.
  - destruct (binary_round_exact true m e) as (m' & e' & -> & Hticks); [done| |lia|].
    { apply Z.divide_opp_r in Hgrid. by rewrite <- Z.mul_opp_l in Hgrid. }
    split; [done|]. cbn [SFticks]. lia.
Qed.

Lemma shl_align_ticks (m : positive) (e e' : Z) :
  -1074 ≤ e' ≤ e →
  Z.pos (shl_align m e e').1 * 2 ^ (e' + 1074) = Z.pos m * 2 ^ (e + 1074).
Proof.
  intros He. unfold shl_align. destruct (e' - e) as [|p|p] eqn:Hshift; cbn [fst].
  - by replace e' with e by lia.
  - lia.
  - rewrite Pos_iter_xO, (pow2_split (e' + 1074) (e + 1074)) by lia.
    replace (e + 1074 - (e' + 1074)) with (Z.pos p) by lia. ring.
Qed.

Lemma cond_Zopp_ticks (s : bool) (m m' : positive) (e e' : Z) :
  Z.pos m' * 2 ^ (e' + 1074) = Z.pos m * 2 ^ (e + 1074) →
  cond_Zopp s (Z.pos m') * 2 ^ (e' + 1074) = SFticks (S754_finite s m e).
Proof. intros H. destruct s; cbn [cond_Zopp SFticks]; lia. Qed.

(** A stored number is sound when it has the form binary64 stores. *)
Lemma valid_finite (s : bool) (m : positive) (e : Z) :
  valid_binary (S754_finite s m e) = true → canonical m e.
Proof. apply bounded_canonical. Qed.

Lemma SFsub_exact (x y : spec_float) :
  valid_binary x = true → valid_binary y = true →
  SFordinary x = true → SFordinary y = true →
  (grain | SFticks x - SFticks y) →
  Z.abs (SFticks x - SFticks y) ≤ 64 * second →
  SFordinary (SF64sub x y) = true
  ∧ SFticks (SF64sub x y) = SFticks x - SFticks y.
Proof.
  intros Hx Hy Ox Oy Hgrid Hle.
  destruct x as [sx| | |sx mx ex], y as [sy| | |sy my ey]; try done.
  - by destruct sx, sy.
  - split; [done|]. cbn [SF64sub SFsub SFticks]. destruct sy; cbn [negb]; lia.
  - split; [done|]. cbn [SF64sub SFsub SFticks]. lia.
  - apply valid_finite, canonical_bounds in Hx as [Hex _].
    apply valid_finite, canonical_bounds in Hy as [Hey _].
    unfold SF64sub, SFsub.
    set (ez := ex `min` ey).
    pose proof (cond_Zopp_ticks sx mx _ ex ez (shl_align_ticks mx ex ez ltac:(lia))) as Ha.
    pose proof (cond_Zopp_ticks sy my _ ey ez (shl_align_ticks my ey ez ltac:(lia))) as Hb.
    rewrite <- Ha, <- Hb, <- Z.mul_sub_distr_r in Hgrid, Hle |- *.
    apply binary_normalize_exact; [lia|done..].
Qed.

Lemma SFadd_exact (x y : spec_float) :
  valid_binary x = true → valid_binary y = true →
  SFordinary x = true → SFordinary y = true →
  (grain | SFticks x + SFticks y) →
  Z.abs (SFticks x + SFticks y) ≤ 64 * second →
  SFordinary (SF64add x y) = true
  ∧ SFticks (SF64add x y) = SFticks x + SFticks y.
Proof.
  intros Hx Hy Ox Oy Hgrid Hle.
  destruct x as [sx| | |sx mx ex], y as [sy| | |sy my ey]; try done.
  - by destruct sx, sy.
  - split; [done|]. cbn [SF64add SFadd SFticks]. lia.
  - apply valid_finite, canonical_bounds in Hx as [Hex _].
    apply valid_finite, canonical_bounds in Hy as [Hey _].
    unfold SF64add, SFadd.
    set (ez := ex `min` ey).
    pose proof (cond_Zopp_ticks sx mx _ ex ez (shl_align_ticks mx ex ez ltac:(lia))) as Ha.
    pose proof (cond_Zopp_ticks sy my _ ey ez (shl_align_ticks my ey ez ltac:(lia))) as Hb.
    rewrite <- Ha, <- Hb, <- Z.mul_add_distr_r in Hgrid, Hle |- *.
    apply binary_normalize_exact; [lia|done..].
Qed.

(** The order of two stored positive numbers is the order of their
    exponents and then of their mantissas. *)
Lemma canonical_compare (m1 m2 : positive) (e1 e2 : Z) :
  canonical m1 e1 → canonical m2 e2 →
  (Z.pos m1 * 2 ^ (e1 + 1074) ?= Z.pos m2 * 2 ^ (e2 + 1074))
  = match e1 ?= e2 with
    | Lt => Lt
    | Gt => Gt
    | Eq => Pos.compare_cont Eq m1 m2
    end.
Proof.
  assert (∀ m1 m2 e1 e2, canonical m1 e1 → canonical m2 e2 → e1 < e2 →
            Z.pos m1 * 2 ^ (e1 + 1074) < Z.pos m2 * 2 ^ (e2 + 1074)) as Hlt.
  { clear. intros m1 m2 e1 e2 H1 H2 He.
    apply canonical_bounds in H1 as (He1 & Hm1 & _).
    apply canonical_bounds in H2 as (_ & _ & Hm2). specialize (Hm2 ltac:(lia)).
    pose proof (pow2_pos (e1 + 1074)).
    rewrite (pow2_split (e1 + 1074) (e2 + 1074)) by lia.
    assert (2 ^ 1 ≤ 2 ^ (e2 + 1074 - (e1 + 1074))) as Hstep
      by (apply Z.pow_le_mono_r; lia).
    rewrite Z.pow_1_r in Hstep.
    change (2 ^ 53) with (2 * 2 ^ 52) in Hm1.
    apply Z.lt_le_trans with (2 * 2 ^ 52 * 2 ^ (e1 + 1074));
      [apply Z.mul_lt_mono_pos_r; lia|].
    rewrite Z.mul_assoc. apply Z.mul_le_mono_nonneg_r; [lia|].
    transitivity (Z.pos m2 * 2); [lia|]. apply Z.mul_le_mono_nonneg_l; lia. }
  intros H1 H2. destruct (e1 ?= e2) eqn:He.
  - apply Z.compare_eq in He as ->.
    apply canonical_bounds in H1 as [He1 _].
    pose proof (pow2_pos (e2 + 1074) ltac:(lia)) as Hp.
    change (Pos.compare_cont Eq m1 m2) with (Z.pos m1 ?= Z.pos m2).
    destruct (Z.compare_spec (Z.pos m1) (Z.pos m2)) as [->|Hm|Hm].
    + apply Z.compare_refl.
    + by apply Z.compare_lt_iff, Z.mul_lt_mono_pos_r.
    + by apply Z.compare_gt_iff, Z.mul_lt_mono_pos_r.
  - apply Z.compare_lt_iff, Hlt; [done..|]. by apply Z.compare_lt_iff.
  - apply Z.compare_gt_iff, Hlt; [done..|]. by apply Z.compare_gt_iff.
Qed.

(** Comparing two stored numbers compares their values. *)
Lemma SFcompare_ticks (x y : spec_float) :
  valid_binary x = true → valid_binary y = true →
  SFordinary x = true → SFordinary y = true →
  SFcompare x y = Some (SFticks x ?= SFticks y).
Proof.
  intros Hx Hy Ox Oy.
  destruct x as [sx| | |sx mx ex], y as [sy| | |sy my ey]; try done.
  - apply valid_finite in Hy. pose proof (canonical_bounds _ _ Hy) as [Hey _].
    pose proof (pow2_pos (ey + 1074)).
    cbn [SFcompare SFticks]. f_equal. symmetry.
    destruct sy; [apply Z.compare_gt_iff|apply Z.compare_lt_iff]; nia.
  - apply valid_finite in Hx. pose proof (canonical_bounds _ _ Hx) as [Hex _].
    pose proof (pow2_pos (ex + 1074)).
    cbn [SFcompare SFticks]. f_equal. symmetry.
    destruct sx; [apply Z.compare_lt_iff|apply Z.compare_gt_iff]; nia.
  - apply valid_finite in Hx, Hy.
    pose proof (canonical_bounds _ _ Hx) as [Hex _].
    pose proof (canonical_bounds _ _ Hy) as [Hey _].
    pose proof (pow2_pos (ex + 1074)). pose proof (pow2_pos (ey + 1074)).
    cbn [SFcompare SFticks]. f_equal. symmetry.
    destruct sx, sy.
    + change (Z.neg mx) with (- Z.pos mx). change (Z.neg my) with (- Z.pos my).
      rewrite !Z.mul_opp_l, Z.compare_opp, (Z.compare_antisym (Z.pos mx * _)).
      rewrite canonical_compare by done. by destruct (ex ?= ey).
    + apply Z.compare_lt_iff. nia.
    + apply Z.compare_gt_iff. nia.
    + by apply canonical_compare.
Qed.

(** Multiplying by 1.0 changes nothing. *)
Lemma SFmul_one (x : spec_float) :
  valid_binary x = true → SF64mul x (Prim2SF 1) = x.
Proof.
  intros Hx. change (Prim2SF 1) with (S754_finite false 4503599627370496 (-52)).
  destruct x as [sx|sx| |sx mx ex]; cbn [SF64mul SFmul];
    rewrite ?xorb_false_r; [done..|].
  apply valid_finite in Hx.
  rewrite Pos.mul_comm.
  change (4503599627370496 * mx)%positive with (Pos.iter xO mx 52).
  rewrite binary_round_aux_shift; replace (ex + -52 + 52) with ex by lia; done.
Qed.

End binary64_rounding.

Section binary64_floats.
Local Open Scope Z_scope.

Lemma sub_exact (x y : float) :
  ordinary x → ordinary y →
  (grain | ticks x - ticks y) →
  Z.abs (ticks x - ticks y) ≤ 64 * second →
  ordinary (x - y) ∧ ticks (x - y) = ticks x - ticks y.
Proof.
  unfold ordinary, ticks. rewrite sub_spec. intros.
  by apply SFsub_exact; try apply Prim2SF_valid.
Qed.

Lemma add_exact (x y : float) :
  ordinary x → ordinary y →
  (grain | ticks x + ticks y) →
  Z.abs (ticks x + ticks y) ≤ 64 * second →
  ordinary (x + y) ∧ ticks (x + y) = ticks x + ticks y.
Proof.
  unfold ordinary, ticks. rewrite add_spec. intros.
  by apply SFadd_exact; try apply Prim2SF_valid.
Qed.

Lemma mul_one (x : float) : (x * 1)%float = x.
Proof. apply Prim2SF_inj. rewrite mul_spec. apply SFmul_one, Prim2SF_valid. Qed.

Lemma ltb_ticks (x y : float) :
  ordinary x → ordinary y → (x <? y)%float = (ticks x <? ticks y).
Proof.
  intros Ox Oy. rewrite ltb_spec. unfold SFltb, Z.ltb, ticks.
  by rewrite SFcompare_ticks by (done || apply Prim2SF_valid).
Qed.

Lemma leb_ticks (x y : float) :
  ordinary x → ordinary y → (x <=? y)%float = (ticks x <=? ticks y).
Proof.
  intros Ox Oy. rewrite leb_spec. unfold SFleb, Z.leb, ticks.
  rewrite SFcompare_ticks by (done || apply Prim2SF_valid).
  by destruct (_ ?= _).
Qed.

Lemma ticks_1 : ticks 1 = second.
Proof. reflexivity. Qed.

Lemma ticks_60 : ticks 60 = 60 * second.
Proof. reflexivity. Qed.

Lemma ticks_64 : ticks 64 = 64 * second.
Proof. reflexivity. Qed.

Lemma second_pos : 0 < second.
Proof. by apply pow2_pos. Qed.

Lemma second_on_grid (k : Z) : (grain | k * second).
Proof. rewrite second_grain. exists (k * 2 ^ 46). ring. Qed.

(** A reading of at least 64 seconds is a multiple of 2^-46. *)
Lemma clock_reading_on_grid (t : float) :
  clock_reading t → on_grid t ∧ 64 * second ≤ ticks t.
Proof.
  intros [Hlo Hhi].
  assert (ordinary t) as Ot.
  { rewrite leb_spec in Hlo. rewrite ltb_spec in Hhi. unfold ordinary.
    destruct (Prim2SF t) as [s|[|]| |s m e]; done. }
  rewrite leb_ticks, ticks_64 in Hlo by done. apply Z.leb_le in Hlo.
  split; [|done]. split; [done|].
  pose proof second_pos as Hs. rewrite second_64 in Hlo.
  unfold ticks in *. pose proof (Prim2SF_valid t) as Hvalid.
  destruct (Prim2SF t) as [s|s| |s m e]; cbn [SFticks] in *; [lia..|].
  apply valid_finite, canonical_bounds in Hvalid as (He & Hm & _).
  pose proof (pow2_pos (e + 1074) ltac:(lia)) as Hp.
  destruct s; [lia|].
  assert (1028 ≤ e + 1074) as Hexp.
  { destruct (Z.le_gt_cases 1028 (e + 1074)) as [|Hsmall]; [done|]. exfalso.
    assert (2 ^ (e + 1074) ≤ 2 ^ 1027) as Hpow by (apply Z.pow_le_mono_r; lia).
    assert (Z.pos m * 2 ^ (e + 1074) < 2 ^ 53 * 2 ^ 1027); [|
      change (2 ^ 53 * 2 ^ 1027) with (2 ^ 1080) in *; lia].
    apply Z.le_lt_trans with (Z.pos m * 2 ^ 1027).
    - apply Z.mul_le_mono_nonneg_l; lia.
    - apply Z.mul_lt_mono_pos_r; [done|lia]. }
  unfold grain. rewrite (pow2_split 1028 (e + 1074)) by lia.
  exists (Z.pos m * 2 ^ (e + 1074 - 1028)). ring.
Qed.

End binary64_floats.

Section rate_limiter_b64_facts.
Local Open Scope Z_scope.

Lemma rate_limit_allow_b64_eq (now : float) (ip : pystr) (b : buckets64)
    (tokens ts : float) :
  default (60%float, now) (b !! ip) = (tokens, ts) →
  rate_limit_allow_b64 now ip b
  = let refill := (tokens + (now - ts) * (60 / 60))%float in
    let tokens := if (refill <? 60)%float then refill else 60%float in
    if (tokens <? 1)%float then (false, <[ip := (tokens, now)]> b)
    else (true, <[ip := ((tokens - 1)%float, now)]> b).
Proof. intros H. unfold rate_limit_allow_b64. by rewrite H. Qed.

(** The refill of lines 50-52 is exact for a bucket and a reading on the
    grid, when at most a second has passed and the bucket is not over
    capacity. *)
Lemma refill_exact (tokens ts now : float) :
  on_grid tokens → on_grid ts → on_grid now →
  0 ≤ ticks tokens ≤ 60 * second →
  0 ≤ ticks now - ticks ts ≤ second →
  on_grid (tokens + (now - ts) * (60 / 60))
  ∧ ticks (tokens + (now - ts) * (60 / 60)) = ticks tokens + (ticks now - ticks ts).
Proof.
  intros [Otok Gtok] [Ots Gts] [Onow Gnow] Htok Hdiff.
  pose proof second_pos.
  change (60 / 60)%float with 1%float. rewrite mul_one.
  destruct (sub_exact now ts) as [Od Hd]; [done|done|by apply Z.divide_sub_r|lia|].
  destruct (add_exact tokens (now - ts)) as [Or Hr];
    [done|done|rewrite Hd; by apply Z.divide_add_r, Z.divide_sub_r|lia|].
  unfold on_grid. rewrite Hr, Hd. repeat split; [done|].
  by apply Z.divide_add_r, Z.divide_sub_r.
Qed.

(** A client with a bucket, seen over readings on the grid that all lie
    in one window of a second starting at [T0]: when the bucket would hold
    [n + 1 <= 60] tokens at the end of the window, the next [n] calls are
    allowed and all later ones denied. *)
Lemma rate_limit_calls_b64_window (ip : pystr) (T0 : Z) (readings : list float) :
  ∀ (n : nat) (b : buckets64) (tokens ts : float),
  b !! ip = Some (tokens, ts) →
  (n ≤ 59)%nat →
  on_grid tokens → on_grid ts →
  T0 ≤ ticks ts →
  ticks tokens + (T0 + second - ticks ts) = (Z.of_nat n + 1) * second →
  StronglySorted (λ a b, ticks a ≤ ticks b) (ts :: readings) →
  Forall (λ t, on_grid t ∧ ticks t < T0 + second) readings →
  (rate_limit_calls_b64 ((λ t, (ip, t)) <$> readings) b).1
  = replicate (n `min` length readings) true
    ++ replicate (length readings - n) false.
Proof.
  induction readings as [|t readings IH];
    intros n b tokens ts Hb Hn Gtok Gts HT0 Hv Hsorted Hwin.
  - simpl. by rewrite Nat.min_0_r.
  - apply Forall_cons in Hwin as [[Gt Hhi] Hwin].
    apply StronglySorted_inv in Hsorted as [Hsorted Hts].
    apply Forall_cons in Hts as [Hts _].
    pose proof second_pos as Hs.
    assert (Z.of_nat n * second ≤ 59 * second) as Hn59
      by (apply Z.mul_le_mono_nonneg_r; lia).
    assert (0 ≤ Z.of_nat n * second) as Hn0 by (apply Z.mul_nonneg_nonneg; lia).
    rewrite Z.mul_add_distr_r, Z.mul_1_l in Hv.
    cbn [fmap list_fmap rate_limit_calls_b64].
    rewrite (rate_limit_allow_b64_eq t ip b tokens ts) by (by rewrite Hb).
    destruct (refill_exact tokens ts t) as [Grefill Hrefill]; [done..|lia|lia|].
    cbv zeta. set (refill := (tokens + (t - ts) * (60 / 60))%float) in *.
    assert (ordinary 60 ∧ ordinary 1) as [O60 O1] by done.
    rewrite (ltb_ticks refill 60), ticks_60 by (done || apply Grefill).
    rewrite (proj2 (Z.ltb_lt _ _)) by lia.
    rewrite (ltb_ticks refill 1), ticks_1 by (done || apply Grefill).
    destruct (Z.ltb_spec (ticks refill) second) as [Hdeny|Hallow].
    + (* denied: no whole token was left *)
      assert (n = 0%nat) as -> by nia.
      specialize (IH 0%nat (<[ip:=(refill, t)]> b) refill t).
      destruct (rate_limit_calls_b64 _ (<[ip:=(refill, t)]> b)) as [oks b'] eqn:E.
      cbn [fst] in *. cbn [Nat.min length replicate app]. rewrite Nat.sub_0_r. f_equal.
      rewrite IH; [|by rewrite lookup_insert_eq|lia|done|done|lia|lia|done|done].
      cbn [Nat.min replicate app]. by rewrite Nat.sub_0_r.
    + (* allowed: one token is taken *)
      destruct n as [|n]; [lia|].
      rewrite Nat2Z.inj_succ in *. unfold Z.succ in *.
      rewrite Z.mul_add_distr_r, Z.mul_1_l in *.
      destruct (sub_exact refill 1) as [Oleft Hleft];
        [apply Grefill|done|
         rewrite ticks_1; apply Z.divide_sub_r;
           [apply Grefill|apply (second_on_grid 1)]|rewrite ticks_1; lia|].
      rewrite ticks_1 in Hleft.
      specialize (IH n (<[ip:=((refill - 1)%float, t)]> b) (refill - 1)%float t).
      destruct (rate_limit_calls_b64 _ (<[ip:=((refill - 1)%float, t)]> b))
        as [oks b'] eqn:E.
      cbn [fst] in *. cbn [Nat.min length replicate app Nat.sub]. f_equal.
      apply IH; [by rewrite lookup_insert_eq|lia| |done|lia|lia|done|done].
      split; [done|]. rewrite Hleft.
      apply Z.divide_sub_r; [apply Grefill|apply (second_on_grid 1)].
Qed.

Lemma value_span (a b : float) :
  (value a - value b < 1)%Q ↔ ticks a - ticks b < second.
Proof.
  unfold value, second. rewrite <- Pos2Z.inj_pow.
  generalize (2 ^ 1074)%positive. intros p.
  unfold Qlt, Qminus, Qplus, Qopp. cbn [Qnum Qden].
  rewrite Z.mul_1_r, Z.mul_1_l, Pos2Z.inj_mul, <- Z.mul_add_distr_r.
  rewrite <- Z.mul_lt_mono_pos_r by lia. lia.
Qed.

Lemma sorted_ticks (readings : list float) :
  Forall clock_reading readings → nondecreasing_b64 readings →
  StronglySorted (λ a b, ticks a ≤ ticks b) readings.
Proof.
  intros Hall. induction 1 as [|t l Hl IH Ht]; [constructor|].
  apply Forall_cons in Hall as [Hfirst Hall].
  constructor; [by apply IH|].
  rewrite Forall_forall in Ht, Hall |- *. intros x Hx.
  apply clock_reading_on_grid in Hfirst as [[Ot _] _].
  destruct (clock_reading_on_grid x (Hall x Hx)) as [[Ox _] _].
  apply Z.leb_le. rewrite <- leb_ticks by done. by apply Ht.
Qed.

Lemma sorted_ticks_below_last (readings : list float) (final : float) :
  StronglySorted (λ a b, ticks a ≤ ticks b) readings →
  last readings = Some final →
  Forall (λ t, ticks t ≤ ticks final) readings.
Proof.
  induction 1 as [|t l Hl IH Ht]; intros Hlast; [done|].
  destruct l as [|t' l'].
  - injection Hlast as <-. by repeat constructor.
  - specialize (IH Hlast). constructor; [|done].
    assert (final ∈ t' :: l') as Hin.
    { change (last (t' :: l') = Some final) in Hlast.
      apply last_Some in Hlast as [l'' ->]. set_solver. }
    rewrite Forall_forall in Ht. by apply Ht.
Qed.

(** A burst of one client alone: 61 calls in a row. *)
Lemma rate_limit_b64_burst_alone
    (ip : pystr) (_BUCKETS : buckets64) (readings : list float) (first final : float) :
  _BUCKETS !! ip = None →
  length readings = 61%nat →
  Forall clock_reading readings →
  nondecreasing_b64 readings →
  head readings = Some first →
  last readings = Some final →
  (value final - value first < 1)%Q →
  (rate_limit_calls_b64 ((λ t, (ip, t)) <$> readings) _BUCKETS).1
  = replicate 60 true ++ [false].
Proof.
  intros Hnew Hlen Hall Hsorted Hhead Hlast Hspan.
  apply value_span in Hspan.
  pose proof (sorted_ticks _ Hall Hsorted) as Hticks.
  pose proof (sorted_ticks_below_last _ _ Hticks Hlast) as Hbelow.
  destruct readings as [|t readings]; [done|].
  injection Hhead as ->. injection Hlen as Hlen.
  apply Forall_cons in Hbelow as [_ Hbelow].
  apply Forall_cons in Hall as [Hfirst Hall].
  apply clock_reading_on_grid in Hfirst as [Gfirst _].
  pose proof second_pos as Hs.
  cbn [fmap list_fmap rate_limit_calls_b64].
  rewrite (rate_limit_allow_b64_eq first ip _BUCKETS 60 first) by (by rewrite Hnew).
  assert (on_grid 60) as G60 by (split; [done|apply (second_on_grid 60)]).
  destruct (refill_exact 60 first first) as [Grefill Hrefill];
    [done..|rewrite ticks_60; lia|lia|].
  cbv zeta. set (refill := (60 + (first - first) * (60 / 60))%float) in *.
  rewrite ticks_60, Z.sub_diag, Z.add_0_r in Hrefill.
  rewrite (ltb_ticks refill 60), ticks_60, Hrefill, Z.ltb_irrefl
    by (done || apply Grefill).
  cbv iota. change (60 <? 1)%float with false. cbv iota.
  change (60 - 1)%float with 59%float.
  pose proof (rate_limit_calls_b64_window ip (ticks first) readings 59
                (<[ip:=(59%float, first)]> _BUCKETS) 59%float first) as Hrest.
  destruct (rate_limit_calls_b64 _ (<[ip:=(59%float, first)]> _BUCKETS))
    as [oks b'] eqn:E.
  cbn [fst] in Hrest |- *. rewrite Hrest.
  - rewrite Hlen. reflexivity.
  - by rewrite lookup_insert_eq.
  - lia.
  - split; [done|apply (second_on_grid 59)].
  - done.
  - lia.
  - change (ticks 59) with (59 * second). lia.
  - done.
  - apply Forall_forall. intros x Hx.
    rewrite Forall_forall in Hbelow, Hall.
    specialize (Hbelow x Hx). split; [|lia].
    by apply clock_reading_on_grid, Hall.
Qed.

Lemma rate_limit_allow_b64_other (now : float) (ip ip' : pystr) (b : buckets64) :
  ip ≠ ip' → (rate_limit_allow_b64 now ip b).2 !! ip' = b !! ip'.
Proof.
  intros Hne. unfold rate_limit_allow_b64.
  destruct (default _ _) as [tokens ts].
  destruct (_ <? 1)%float; simpl; by rewrite lookup_insert_ne.
Qed.

Lemma rate_limit_allow_b64_same_bucket (now : float) (ip : pystr) (b b' : buckets64) :
  b !! ip = b' !! ip →
  (rate_limit_allow_b64 now ip b).1 = (rate_limit_allow_b64 now ip b').1
  ∧ (rate_limit_allow_b64 now ip b).2 !! ip = (rate_limit_allow_b64 now ip b').2 !! ip.
Proof.
  intros Hsame. unfold rate_limit_allow_b64. rewrite Hsame.
  destruct (default _ _) as [tokens ts].
  destruct (_ <? 1)%float; simpl; by rewrite !lookup_insert_eq.
Qed.

(** The calls of other clients, wherever they fall in the sequence, do not
    change the answers a client gets. *)
Lemma rate_limit_calls_b64_other_clients (ip : pystr) (calls : list (pystr * float)) :
  ∀ b b' : buckets64,
  b !! ip = b' !! ip →
  answers_to_b64 ip calls (rate_limit_calls_b64 calls b).1
  = (rate_limit_calls_b64 ((λ t, (ip, t)) <$> readings_of ip calls) b').1.
Proof.
  unfold readings_of.
  induction calls as [|[ip' t] calls IH]; intros b b' Hsame; [done|].
  cbn [rate_limit_calls_b64].
  destruct (decide (ip' = ip)) as [->|Hne].
  - rewrite filter_cons_True by done. cbn [fmap list_fmap snd rate_limit_calls_b64].
    destruct (rate_limit_allow_b64_same_bucket t ip b b' Hsame) as [Hok Hnext].
    destruct (rate_limit_allow_b64 t ip b) as [ok b1].
    destruct (rate_limit_allow_b64 t ip b') as [ok' b1'].
    simpl in Hok, Hnext. subst ok'.
    specialize (IH b1 b1' Hnext).
    destruct (rate_limit_calls_b64 calls b1) as [oks b2].
    destruct (rate_limit_calls_b64 _ b1') as [oks' b2'].
    simpl in *. rewrite decide_True by done. by f_equal.
  - rewrite filter_cons_False by done.
    pose proof (rate_limit_allow_b64_other t ip' ip b Hne) as Hkeep.
    destruct (rate_limit_allow_b64 t ip' b) as [ok b1]. simpl in Hkeep.
    specialize (IH b1 b'). rewrite Hkeep in IH. specialize (IH Hsame).
    destruct (rate_limit_calls_b64 calls b1) as [oks b2].
    simpl in *. by rewrite decide_False.
Qed.

End rate_limiter_b64_facts.

(** C7 as stated fails in two ways, with all 61 readings of a new client
    less than a second apart.  When the clock steps back after the first
    call (readings 1024.5, then 60 times 1024.0) the refill is negative and
    the 60th call is already denied.  With readings near zero (59 times
    0.0, then twice 1 - 2^-53) the sum of line 50 rounds up to a whole
    token, and the 61st call is allowed. *)
Lemma rate_limit_b64_burst_not_always_60 :
  let stepping_back := 1024.5%float :: replicate 60 1024%float in
  let near_zero := replicate 59 0%float ++ replicate 2 (1 - 0x1p-53)%float in
  (value 1024.5 - value 1024 < 1)%Q
  ∧ (rate_limit_calls_b64 ((λ t, (str "10.0.0.1", t)) <$> stepping_back) ∅).1
    = replicate 59 true ++ [false; false]
  ∧ nondecreasing_b64 near_zero
  ∧ (value (1 - 0x1p-53) - value 0 < 1)%Q
  ∧ (rate_limit_calls_b64 ((λ t, (str "10.0.0.1", t)) <$> near_zero) ∅).1
    = replicate 61 true.
Proof.
  intros stepping_back near_zero. split_and!.
  - reflexivity.
  - vm_compute. reflexivity.
  - repeat (constructor; [|repeat constructor]). constructor.
  - reflexivity.
  - vm_compute. reflexivity.
Qed.

(** C7 (as amended). A client key that has no bucket yet makes 61 calls,
    among the calls of any other clients; the clock readings of its calls
    are binary64 numbers of at least 64 seconds that never decrease and
    span less than one second.  Its first 60 calls are allowed and its 61st
    is denied. *)
Theorem rate_limit_b64_burst_61st_denied
    (ip : pystr) (_BUCKETS : buckets64) (calls : list (pystr * float))
    (first final : float) :
  _BUCKETS !! ip = None →
  length (readings_of ip calls) = 61 →
  Forall clock_reading (readings_of ip calls) →
  nondecreasing_b64 (readings_of ip calls) →
  head (readings_of ip calls) = Some first →
  last (readings_of ip calls) = Some final →
  (value final - value first < 1)%Q →
  answers_to_b64 ip calls (rate_limit_calls_b64 calls _BUCKETS).1
  = replicate 60 true ++ [false].
Proof.
  intros Hnew Hlen Hall Hsorted Hhead Hlast Hspan.
  rewrite (rate_limit_calls_b64_other_clients ip calls _BUCKETS _BUCKETS) by done.
  by eapply rate_limit_b64_burst_alone.
Qed.

Lemma rate_limit_b64_burst_61st_denied_witness :
  let own := replicate 20 1700000000%float ++ replicate 20 1700000000.25%float
             ++ replicate 21 1700000000.75%float in
  let burst := (λ t, (str "10.0.0.1", t)) <$> own in
  let calls := (str "10.0.0.2", 1700000000.5%float) :: take 30 burst
               ++ (str "10.0.0.2", 3%float) :: drop 30 burst in
  (∅ : buckets64) !! str "10.0.0.1" = None
  ∧ readings_of (str "10.0.0.1") calls = own
  ∧ Forall clock_reading own
  ∧ nondecreasing_b64 own
  ∧ answers_to_b64 (str "10.0.0.1") calls (rate_limit_calls_b64 calls ∅).1
    = replicate 60 true ++ [false].
Proof.
  intros own burst calls.
  assert (readings_of (str "10.0.0.1") calls = own) as Hown by (vm_compute; reflexivity).
  assert (Forall clock_reading own) as Hall by (repeat constructor).
  assert (nondecreasing_b64 own) as Hsorted.
  { repeat (constructor; [|repeat constructor]). constructor. }
  split_and!; [apply lookup_empty|exact Hown|exact Hall|exact Hsorted|].
  apply (rate_limit_b64_burst_61st_denied (str "10.0.0.1") ∅ calls
           1700000000%float 1700000000.75%float).
  - apply lookup_empty.
  - by rewrite Hown.
  - by rewrite Hown.
  - by rewrite Hown.
  - by rewrite Hown.
  - by rewrite Hown.
  - vm_compute. reflexivity.
Defined.

(** ** Properties of the per-question consumer *)

Section consumer_facts.

Lemma collect_full (script : list get_result) (chunks : list pystr) :
  MAX_CHARS ≤ length (concat chunks) →
  collect script chunks = inr (chunks, false).
Proof.
  intros Hfull. destruct script as [|got script]; [done|].
  simpl. case_decide; [lia|done].
Qed.

(** Chunks that stay below the cap are all taken. *)
Lemma collect_arrivals_below (fragments : list pystr) :
  ∀ (rest : list get_result) (chunks : list pystr),
  length (concat (chunks ++ fragments)) < MAX_CHARS →
  collect (arrivals fragments ++ rest) chunks = collect rest (chunks ++ fragments).
Proof.
  induction fragments as [|fragment fragments IH]; intros rest chunks Hlen.
  - by rewrite app_nil_r.
  - simpl. rewrite concat_app, length_app in Hlen.
    case_decide; [|lia].
    rewrite IH; rewrite <- app_assoc; [done|].
    by rewrite concat_app, length_app.
Qed.

(** Chunks that reach the cap: the loop ends without the end marker, on
    chunks that agree with the arrived text on its first [MAX_CHARS]
    characters. *)
Lemma collect_arrivals_cap (fragments : list pystr) :
  ∀ (rest : list get_result) (chunks : list pystr),
  MAX_CHARS ≤ length (concat (chunks ++ fragments)) →
  ∃ taken, collect (arrivals fragments ++ rest) chunks = inr (taken, false)
    ∧ MAX_CHARS ≤ length (concat taken)
    ∧ take MAX_CHARS (concat taken) = take MAX_CHARS (concat (chunks ++ fragments)).
Proof.
  induction fragments as [|fragment fragments IH]; intros rest chunks Hlen.
  - rewrite app_nil_r in *. exists chunks. by rewrite collect_full.
  - simpl. case_decide as Hroom.
    + destruct (IH rest (chunks ++ [fragment])) as (taken & Hrun & Hfull & Htake).
      { by rewrite <- app_assoc. }
      exists taken. rewrite <- app_assoc in Htake. done.
    + exists chunks. split_and!; [done|lia|].
      rewrite concat_app, take_app_le; [done|lia].
Qed.

Lemma marker_length : length (str "...") = 3.
Proof. reflexivity. Qed.

Lemma finalize_cap (chunks : list pystr) :
  MAX_CHARS ≤ length (concat chunks) →
  finalize chunks false = take (MAX_CHARS - 3) (concat chunks) ++ str "...".
Proof.
  intros Hfull. unfold finalize, drop_last.
  rewrite length_take, Nat.min_l by done.
  rewrite (bool_decide_true (MAX_CHARS = MAX_CHARS)) by done. cbn [andb negb].
  rewrite take_take, Nat.min_l by lia.
  rewrite bool_decide_false; [done|].
  intros Hnil. apply (f_equal length) in Hnil.
  rewrite length_app, marker_length in Hnil. simpl in Hnil. lia.
Qed.

Lemma finalize_short (chunks : list pystr) (done : bool) :
  length (concat chunks) < MAX_CHARS →
  finalize chunks done
  = if decide (concat chunks = []) then str "Request timed out" else concat chunks.
Proof.
  intros Hshort. unfold finalize.
  rewrite take_ge by lia.
  rewrite (bool_decide_false (length (concat chunks) = MAX_CHARS)) by lia.
  cbn [andb].
  destruct (decide (concat chunks = [])) as [Hnil|Hne].
  - by rewrite bool_decide_true.
  - by rewrite bool_decide_false.
Qed.

(** The loop stopped by the cap. *)
Lemma handle_question_cap (fragments : list pystr) (rest : list get_result) :
  MAX_CHARS ≤ length (concat fragments) →
  handle_question (arrivals fragments ++ rest)
  = inr {| content := take (MAX_CHARS - 3) (concat fragments) ++ str "...";
           complete := false |}.
Proof.
  intros Hfull. unfold handle_question.
  destruct (collect_arrivals_cap fragments rest []) as (taken & -> & Htaken & Htake);
    [done|].
  rewrite finalize_cap by done. simpl in Htake.
  assert (∀ text : pystr,
            take (MAX_CHARS - 3) text = take (MAX_CHARS - 3) (take MAX_CHARS text))
    as Hcut.
  { intros text. by rewrite take_take. }
  by rewrite (Hcut (concat taken)), Htake, <- Hcut.
Qed.

(** The loop stopped by the deadline, below the cap. *)
Lemma handle_question_deadline (fragments : list pystr) (stop : list get_result) :
  length (concat fragments) < MAX_CHARS → deadline_stop stop →
  handle_question (arrivals fragments ++ stop)
  = inr {| content := if decide (concat fragments = [])
                      then str "Request timed out" else concat fragments;
           complete := false |}.
Proof.
  intros Hshort Hstop. unfold handle_question.
  rewrite collect_arrivals_below by done. simpl.
  destruct Hstop as [->|[script' ->]]; simpl.
  - by rewrite finalize_short.
  - case_decide; [|lia]. by rewrite finalize_short.
Qed.

(** The loop stopped by the end marker. *)
Lemma handle_question_finished (fragments : list pystr) (rest : list get_result) :
  length (concat fragments) < MAX_CHARS →
  handle_question (arrivals fragments ++ Item None :: rest)
  = inr {| content := if decide (concat fragments = [])
                      then str "Request timed out" else concat fragments;
           complete := true |}.
Proof.
  intros Hshort. unfold handle_question.
  rewrite collect_arrivals_below by done. simpl.
  case_decide; [|lia]. by rewrite finalize_short.
Qed.

End consumer_facts.

(** C1 (as amended). A run that ends without the end marker, by the cap or
    by the deadline (its script is [arrivals fragments] followed by anything
    once the cap is reached, or by a deadline stop below the cap): when the
    arrived text has [MAX_CHARS] characters or more, the content is its first
    [MAX_CHARS] characters with the last three replaced by three periods;
    when it is shorter, the content is the text as it arrived (the timeout
    phrase when it is empty), without the marker.  A run that ends on the
    end marker never gets the replacement. *)
Theorem truncation_marker_only_at_cap
    (fragments : list pystr) (rest stop : list get_result) :
  deadline_stop stop →
  (MAX_CHARS ≤ length (concat fragments) →
     handle_question (arrivals fragments ++ rest)
     = inr {| content := take (MAX_CHARS - 3) (concat fragments) ++ str "...";
              complete := false |})
  ∧ (length (concat fragments) < MAX_CHARS →
     handle_question (arrivals fragments ++ stop)
     = inr {| content := if decide (concat fragments = [])
                         then str "Request timed out" else concat fragments;
              complete := false |})
  ∧ (length (concat fragments) < MAX_CHARS →
     handle_question (arrivals fragments ++ Item None :: rest)
     = inr {| content := if decide (concat fragments = [])
                         then str "Request timed out" else concat fragments;
              complete := true |}).
Proof.
  intros Hstop. split_and!; intros Hlen.
  - by apply handle_question_cap.
  - by apply handle_question_deadline.
  - by apply handle_question_finished.
Qed.

Lemma truncation_marker_only_at_cap_witness :
  deadline_stop [Empty]
  ∧ handle_question (arrivals [replicate 300 97%N; replicate 300 98%N] ++ [Item None])
    = inr {| content := take (MAX_CHARS - 3)
                          (concat [replicate 300 97%N; replicate 300 98%N])
                        ++ str "...";
             complete := false |}
  ∧ handle_question (arrivals [str "hello"] ++ [Empty])
    = inr {| content := str "hello"; complete := false |}
  ∧ handle_question (arrivals [str "hello"] ++ [Item None])
    = inr {| content := str "hello"; complete := true |}.
Proof.
  assert (deadline_stop [Empty]) as Hstop by (right; by exists []).
  split; [exact Hstop|].
  split.
  - apply (truncation_marker_only_at_cap
             [replicate 300 97%N; replicate 300 98%N] [Item None] [Empty] Hstop).
    vm_compute. lia.
  - pose proof (truncation_marker_only_at_cap [str "hello"] [] [Empty] Hstop)
      as (_ & Hdeadline & Hfinished).
    split; [apply Hdeadline|apply Hfinished]; vm_compute; lia.
Defined.

(** C1 as stated fails: the chunk "hello" arrives and then the deadline
    passes; the text is not empty, and the content is "hello", unmarked. *)
Lemma deadline_below_cap_leaves_text_unmarked :
  let fragments := [str "hello"] in
  ∃ a, handle_question (arrivals fragments) = inr a
    ∧ complete a = false
    ∧ take MAX_CHARS (concat fragments) ≠ []
    ∧ last_chars 3 (content a) ≠ str "...".
Proof.
  eexists. split; [vm_compute; reflexivity|]. split_and!; vm_compute; congruence.
Qed.

(** C5 (as amended). Chunks whose text is shorter than [MAX_CHARS] and not
    empty, followed by the end marker, all before the deadline: the answer
    is complete and its content is the chunks joined in order. *)
Theorem finished_below_cap_is_whole
    (fragments : list pystr) (rest : list get_result) :
  length (concat fragments) < MAX_CHARS →
  concat fragments ≠ [] →
  handle_question (arrivals fragments ++ Item None :: rest)
  = inr {| content := concat fragments; complete := true |}.
Proof.
  intros Hshort Hne. rewrite handle_question_finished by done.
  by rewrite decide_False.
Qed.

Lemma finished_below_cap_is_whole_witness :
  length (concat [str "42 is "; str "the answer"]) < MAX_CHARS
  ∧ concat [str "42 is "; str "the answer"] ≠ []
  ∧ handle_question (arrivals [str "42 is "; str "the answer"] ++ [Item None])
    = inr {| content := str "42 is the answer"; complete := true |}.
Proof.
  split_and!; [vm_compute; lia|done|].
  apply (finished_below_cap_is_whole [str "42 is "; str "the answer"] []);
    [vm_compute; lia|done].
Defined.

(** C5 as stated fails on the stream that ends at once: no chunk, total
    length 0, then the end marker.  The content is the timeout phrase, not
    the (empty) joined text. *)
Lemma finished_empty_stream_gets_timeout_text :
  let fragments : list pystr := [] in
  length (concat fragments) < MAX_CHARS
  ∧ ∃ a, handle_question (arrivals fragments ++ [Item None]) = inr a
      ∧ complete a = true
      ∧ content a = str "Request timed out"
      ∧ content a ≠ concat fragments.
Proof.
  split; [vm_compute; lia|].
  eexists. split; [vm_compute; reflexivity|]. by split_and!.
Qed.

(** C6. Chunks arrive, with no end marker among them, until their text
    has [MAX_CHARS] characters or more: whatever follows, the content has
    exactly [MAX_CHARS] characters, its last three are three periods, and
    the answer is not complete.  With chunks of 530 characters in all the
    content has 500 characters. *)
Theorem cap_reached_ends_with_marker
    (fragments : list pystr) (rest : list get_result) :
  MAX_CHARS ≤ length (concat fragments) →
  ∃ a, handle_question (arrivals fragments ++ rest) = inr a
    ∧ length (content a) = MAX_CHARS
    ∧ last_chars 3 (content a) = str "..."
    ∧ complete a = false
    ∧ (length (concat fragments) = 530 → length (content a) = 500).
Proof.
  intros Hfull. eexists. split; [by apply handle_question_cap|].
  cbn [content complete].
  assert (length (take (MAX_CHARS - 3) (concat fragments) ++ str "...") = MAX_CHARS)
    as Hlen.
  { rewrite length_app, length_take, marker_length. unfold MAX_CHARS in *. lia. }
  split_and!; [done| |done|done].
  unfold last_chars. rewrite Hlen.
  rewrite drop_app_length'; [done|].
  rewrite length_take. unfold MAX_CHARS in *. lia.
Qed.

Lemma cap_reached_ends_with_marker_witness :
  MAX_CHARS ≤ length (concat (replicate 53 (replicate 10 120%N)))
  ∧ ∃ a, handle_question (arrivals (replicate 53 (replicate 10 120%N)) ++ [Item None])
         = inr a
      ∧ length (content a) = MAX_CHARS
      ∧ last_chars 3 (content a) = str "..."
      ∧ complete a = false
      ∧ (length (concat (replicate 53 (replicate 10 120%N))) = 530 →
         length (content a) = 500).
Proof.
  assert (MAX_CHARS ≤ length (concat (replicate 53 (replicate 10 120%N)))) as Hfull
    by (vm_compute; lia).
  split; [exact Hfull|].
  exact (cap_reached_ends_with_marker (replicate 53 (replicate 10 120%N)) [Item None] Hfull).
Defined.

(** C8 (as amended). No text has arrived when the loop ends: the content
    is the timeout phrase; and the answer is not complete when the loop
    ended by the deadline, the end marker not seen. *)
Theorem no_text_gives_timeout_phrase
    (fragments : list pystr) (rest stop : list get_result) :
  concat fragments = [] →
  deadline_stop stop →
  handle_question (arrivals fragments ++ stop)
  = inr {| content := str "Request timed out"; complete := false |}
  ∧ ∃ a, handle_question (arrivals fragments ++ Item None :: rest) = inr a
      ∧ content a = str "Request timed out".
Proof.
  intros Hnil Hstop.
  assert (length (concat fragments) < MAX_CHARS) as Hshort
    by (rewrite Hnil; unfold MAX_CHARS; simpl; lia).
  split.
  - rewrite handle_question_deadline by done. by rewrite decide_True.
  - eexists. split; [by apply handle_question_finished|].
    simpl. by rewrite decide_True.
Qed.

Lemma no_text_gives_timeout_phrase_witness :
  concat ([] : list pystr) = []
  ∧ deadline_stop []
  ∧ handle_question []
    = inr {| content := str "Request timed out"; complete := false |}.
Proof.
  assert (deadline_stop []) as Hstop by (by left).
  split_and!; [done|exact Hstop|].
  exact (proj1 (no_text_gives_timeout_phrase [] [] [] eq_refl Hstop)).
Defined.

(** C8 as stated fails on the stream that ends at once: no chunk arrives,
    the end marker does, and [done] is set although the content is the
    timeout phrase. *)
Lemma finished_empty_stream_is_complete :
  ∃ a, handle_question [Item None] = inr a
    ∧ content a = str "Request timed out"
    ∧ complete a ≠ false.
Proof. eexists. split; [vm_compute; reflexivity|]. by split. Qed.

(** ** Properties of [llm_stream] *)

Section llm_stream_facts.

Lemma iter_lines_fault (lines : body) (chunks : list pystr) (err : raised) :
  body_fault lines chunks err →
  ∀ out_queue,
    iter_lines lines out_queue = (Some err, out_queue ++ (Some <$> chunks)).
Proof.
  induction 1 as [err|err more|more chunks err _ IH|d more chunks err Hdone _ IH];
    intros out_queue; simpl.
  - by rewrite app_nil_r.
  - by rewrite app_nil_r.
  - apply IH.
  - rewrite Hdone, IH. f_equal. rewrite fmap_app, app_assoc. f_equal.
    unfold chunk_of, put. destruct (message_content d) as [chunk|]; simpl.
    + case_bool_decide; simpl; [done|by rewrite app_nil_r].
    + by rewrite app_nil_r.
Qed.

End llm_stream_facts.

(** C9. Whatever fault the request meets (the connection fails, the
    status is not a success, the body cannot be read or a line of it is
    malformed), the fault being an instance of [Exception]: nothing
    propagates out of [llm_stream]; after the chunks put before the fault
    the queue receives the text of the error (behind the tag
    ["[llm error] "]) as a chunk, and then the end marker [None]. *)
Theorem llm_stream_fault_becomes_text
    (post : request → response) (prompt : pystr)
    (out_queue : list (option pystr)) (chunks : list pystr) (err : raised) :
  backend_fault (post (chat_request prompt)) chunks err →
  is_Exception err = true →
  llm_stream post prompt out_queue
  = (None, out_queue ++ (Some <$> chunks)
             ++ [Some (str "[llm error] " ++ text err); None]).
Proof.
  intros Hfault Hexc. unfold llm_stream.
  destruct Hfault as [err|err lines|lines chunks err Hbody].
  - rewrite Hexc. unfold put. simpl. by rewrite <- app_assoc.
  - rewrite Hexc. unfold put. simpl. by rewrite <- app_assoc.
  - rewrite (iter_lines_fault _ _ _ Hbody), Hexc. unfold put.
    by rewrite <- !app_assoc.
Qed.

Lemma llm_stream_fault_becomes_text_witness :
  let malformed := Raised true (str "Expecting value: line 1 column 1 (char 0)") in
  let lines := Line (Json (inr (Data (Some (str "Hi")) false)))
                 (Line Blank (Line (Json (inl malformed)) EndOfInput)) in
  backend_fault (Response None lines) [str "Hi"] malformed
  ∧ is_Exception malformed = true
  ∧ llm_stream (λ _, Response None lines) (str "hello") []
    = (None, [Some (str "Hi");
              Some (str "[llm error] Expecting value: line 1 column 1 (char 0)");
              None]).
Proof.
  intros malformed lines.
  assert (backend_fault (Response None lines) [str "Hi"] malformed) as Hfault.
  { apply fault_body.
    apply (fault_after_data (Data (Some (str "Hi")) false) _ [] malformed eq_refl).
    apply fault_after_blank, fault_malformed. }
  split_and!; [exact Hfault|reflexivity|].
  exact (llm_stream_fault_becomes_text (λ _, Response None lines) (str "hello") []
           [str "Hi"] malformed Hfault eq_refl).
Defined.

(** ** The prompt *)

Section prompt_facts.

Variable decimal_digit : N → option N.

Lemma dns_unescape_plain (c : N) (tail : pystr) :
  c ≠ 92%N →
  dns_unescape decimal_digit (c :: tail) = c :: dns_unescape decimal_digit tail.
Proof.
  intros Hc. apply N.eqb_neq in Hc.
  change (dns_unescape decimal_digit (c :: tail))
    with (if (c =? 92)%N
          then match tail with
               | d1 :: d2 :: d3 :: rest =>
                   match decimal_digit d1, decimal_digit d2, decimal_digit d3 with
                   | Some n1, Some n2, Some n3 =>
                       (100 * n1 + 10 * n2 + n3)%N :: dns_unescape decimal_digit rest
                   | _, _, _ => c :: dns_unescape decimal_digit tail
                   end
               | _ => c :: dns_unescape decimal_digit tail
               end
          else c :: dns_unescape decimal_digit tail).
  by rewrite Hc.
Qed.

Lemma dns_unescape_escape (d1 d2 d3 n1 n2 n3 : N) (rest : pystr) :
  decimal_digit d1 = Some n1 →
  decimal_digit d2 = Some n2 →
  decimal_digit d3 = Some n3 →
  dns_unescape decimal_digit (92%N :: d1 :: d2 :: d3 :: rest)
  = (100 * n1 + 10 * n2 + n3)%N :: dns_unescape decimal_digit rest.
Proof.
  intros H1 H2 H3.
  change (dns_unescape decimal_digit (92%N :: d1 :: d2 :: d3 :: rest))
    with (match decimal_digit d1, decimal_digit d2, decimal_digit d3 with
          | Some n1, Some n2, Some n3 =>
              (100 * n1 + 10 * n2 + n3)%N :: dns_unescape decimal_digit rest
          | _, _, _ => 92%N :: dns_unescape decimal_digit (d1 :: d2 :: d3 :: rest)
          end).
  by rewrite H1, H2, H3.
Qed.

End prompt_facts.

(** C10. The name "hello\032world.mashb1t.de." (with [DOMAIN] being
    ".mashb1t.de"): the trailing dot and the domain are stripped, the
    escaped "\032" becomes a space, and the prompt is the instruction,
    asking for [MAX_CHARS] = 500 characters or less and no markdown
    formatting, followed by "hello world". *)
Theorem dns_safe_prompt_hello_world (decimal_digit : N → option N) :
  ascii_digits decimal_digit →
  DOMAIN = str ".mashb1t.de"
  ∧ rstrip 46 (str "hello\032world.mashb1t.de.") = str "hello\032world.mashb1t.de"
  ∧ removesuffix (str "hello\032world.mashb1t.de") DOMAIN = str "hello\032world"
  ∧ dns_unescape decimal_digit (str "hello\032world") = str "hello world"
  ∧ dns_safe_prompt decimal_digit (str "hello\032world.mashb1t.de.")
    = str "Answer in 500 characters or less, no markdown formatting: hello world".
Proof.
  intros Hdigits.
  assert (decimal_digit 48%N = Some 0%N) as H0 by (apply (Hdigits 0%N); lia).
  assert (decimal_digit 51%N = Some 3%N) as H3 by (apply (Hdigits 3%N); lia).
  assert (decimal_digit 50%N = Some 2%N) as H2 by (apply (Hdigits 2%N); lia).
  assert (rstrip 46 (str "hello\032world.mashb1t.de.")
          = str "hello\032world.mashb1t.de") as Hstrip by (by vm_compute).
  assert (removesuffix (str "hello\032world.mashb1t.de") DOMAIN
          = str "hello\032world") as Hsuffix by (by vm_compute).
  assert (dns_unescape decimal_digit (str "hello\032world") = str "hello world")
    as Hunescape.
  { replace (str "hello\032world")
      with [104; 101; 108; 108; 111; 92; 48; 51; 50; 119; 111; 114; 108; 100]%N
      by (by vm_compute).
    rewrite !dns_unescape_plain by done.
    rewrite (dns_unescape_escape decimal_digit _ _ _ _ _ _ _ H0 H3 H2).
    rewrite !dns_unescape_plain by done.
    by vm_compute. }
  split_and!; [done|done|done|done|].
  unfold dns_safe_prompt. rewrite Hstrip, Hsuffix, Hunescape. by vm_compute.
Qed.

Lemma dns_safe_prompt_hello_world_witness :
  let digit (c : N) :=
    if ((48 <=? c) && (c <=? 57))%N then Some (c - 48)%N else None in
  ascii_digits digit
  ∧ dns_safe_prompt digit (str "hello\032world.mashb1t.de.")
    = str "Answer in 500 characters or less, no markdown formatting: hello world".
Proof.
  intros digit.
  assert (ascii_digits digit) as Hdigits.
  { intros d Hd. unfold digit.
    replace (48 <=? 48 + d)%N with true by (symmetry; apply N.leb_le; lia).
    replace (48 + d <=? 57)%N with true by (symmetry; apply N.leb_le; lia).
    simpl. f_equal. lia. }
  split; [exact Hdigits|].
  apply (dns_safe_prompt_hello_world digit Hdigits).
Defined.

(** ** Further properties of [split_txt] *)

Lemma range_count (len : nat) :
  (len - 0 + 255 - 1) / 255
  = len / 255 + (if decide (len mod 255 = 0) then 0 else 1).
Proof.
  pose proof (Nat.div_mod_eq len 255) as Hlen.
  pose proof (Nat.mod_upper_bound len 255) as Hmod.
  symmetry. case_decide as Hzero.
  - apply (Nat.div_unique _ _ _ 254); lia.
  - apply (Nat.div_unique _ _ _ (len mod 255 - 1)); lia.
Qed.

Lemma range_from_slice_lengths (txt : pystr) (q r : nat) :
  r < 255 →
  ∀ i, length txt = i + q * 255 + r →
  length <$> ((λ i, slice txt i (i + 255))
              <$> range_from (q + (if decide (r = 0) then 0 else 1)) i 255)
  = replicate q 255 ++ (if decide (r = 0) then [] else [r]).
Proof.
  intros Hr. induction q as [|q IH]; intros i Hlen.
  - case_decide; [done|]. cbn [Nat.add range_from fmap list_fmap replicate app].
    unfold slice. rewrite length_take, length_drop. f_equal. lia.
  - cbn [Nat.add range_from fmap list_fmap replicate app].
    rewrite IH by lia. f_equal.
    unfold slice. rewrite length_take, length_drop. lia.
Qed.

(** X1. The lengths of the segments: the empty text gives one empty segment;
    any other text gives [len / 255] segments of 255 characters, followed
    by one segment with the remaining [len mod 255] characters when there
    are any.  (A text of 600 characters: 255, 255, 90.) *)
Theorem split_txt_segment_lengths (text : pystr) :
  length <$> split_txt text
  = if decide (text = []) then [0]
    else replicate (length text / 255) 255
         ++ (if decide (length text mod 255 = 0) then [] else [length text mod 255]).
Proof.
  case_decide as Hnil; [by subst|].
  rewrite split_txt_chunks by done. unfold range. rewrite range_count.
  apply range_from_slice_lengths.
  - apply Nat.mod_upper_bound. lia.
  - pose proof (Nat.div_mod_eq (length text) 255). lia.
Qed.

Lemma split_txt_ascii_segment_bytes_witness :
  Forall (λ c, (c < 0x80)%N) (replicate 600 97%N)
  ∧ replicate 255 97%N ∈ split_txt (replicate 600 97%N)
  ∧ length (encode (replicate 255 97%N)) ≤ 255.
Proof.
  assert (Forall (λ c, (c < 0x80)%N) (replicate 600 97%N)) as Hascii.
  { apply Forall_replicate. reflexivity. }
  assert (replicate 255 97%N ∈ split_txt (replicate 600 97%N)) as Hin.
  { vm_compute. left. }
  split_and!; [exact Hascii|exact Hin|].
  exact (split_txt_ascii_segment_bytes _ _ Hascii Hin).
Defined.

(** ** Further properties of the rate limiter *)

Section rate_limiter_more.
Local Open Scope Q_scope.

Lemma rate_limit_allow_refilled (now : Q) (ip : pystr) (b : buckets) :
  rate_limit_allow now ip b
  = if Qlt_le_dec (refilled now (b !! ip)) 1
    then (false, <[ip := (refilled now (b !! ip), now)]> b)
    else (true, <[ip := (refilled now (b !! ip) - 1, now)]> b).
Proof.
  unfold rate_limit_allow, refilled.
  by destruct (default _ _) as [tokens ts].
Qed.

Lemma refilled_nonneg (now : Q) (bucket : option (Q * Q)) :
  (∀ tokens ts, bucket = Some (tokens, ts) → 0 <= tokens ∧ ts <= now) →
  0 <= refilled now bucket.
Proof.
  intros Hbucket. unfold refilled.
  destruct bucket as [[tokens ts]|]; cbn [default];
    (apply Q.min_glb; [unfold TOKENS_PER_MIN; lra|]); rewrite refill_rate.
  - destruct (Hbucket tokens ts eq_refl). lra.
  - unfold TOKENS_PER_MIN. lra.
Qed.

(** No bucket carries a stamp later than [bound], when no call came later
    than [bound]. *)
Lemma rate_limit_calls_inv_bound (calls : list (pystr * Q)) :
  ∀ (now bound : Q) (b : buckets),
  buckets_inv now b →
  nondecreasing (now :: calls.*2) →
  Forall (λ t, t <= bound) (now :: calls.*2) →
  buckets_inv bound (rate_limit_calls calls b).2.
Proof.
  induction calls as [|[ip t] calls IH]; intros now bound b Hinv Hsorted Hbound.
  - apply Forall_cons in Hbound as [Hnow _].
    intros ip tokens ts Hlook. destruct (Hinv _ _ _ Hlook). split; [done|lra].
  - cbn [fmap list_fmap snd] in *.
    apply StronglySorted_inv in Hsorted as [Htail Hhead].
    apply Forall_cons in Hhead as [Hnow _].
    apply Forall_cons in Hbound as [_ Hbound].
    pose proof (rate_limit_allow_inv now t ip b Hinv Hnow) as Hstep.
    cbn [rate_limit_calls].
    destruct (rate_limit_allow t ip b) as [ok b'].
    specialize (IH t bound b' Hstep Htail Hbound).
    by destruct (rate_limit_calls calls b') as [oks b''].
Qed.

End rate_limiter_more.

Section rate_limiter_traffic.
Local Open Scope Q_scope.

Lemma rate_limit_calls_from_empty_inv (calls : list (pystr * Q)) (bound : Q) :
  nondecreasing calls.*2 →
  Forall (λ t, t <= bound) calls.*2 →
  buckets_inv bound (rate_limit_calls calls ∅).2.
Proof.
  intros Hsorted Hbound. destruct calls as [|[ip t] calls].
  - unfold buckets_inv. cbn [rate_limit_calls snd].
    intros ? ? ? Hlook. by rewrite lookup_empty in Hlook.
  - apply (rate_limit_calls_inv_bound _ t).
    + intros ? ? ? Hlook. by rewrite lookup_empty in Hlook.
    + cbn [fmap list_fmap snd] in *. constructor; [done|].
      constructor; [apply Qle_refl|].
      by apply StronglySorted_inv in Hsorted as [_ ?].
    + cbn [fmap list_fmap snd] in *. constructor; [|done].
      by apply Forall_cons in Hbound as [? _].
Qed.

(** The stamp of a client's bucket is the time of its last call. *)
Lemma bucket_stamp (ip : pystr) (calls : list (pystr * Q)) :
  ∀ b : buckets,
  snd <$> (rate_limit_calls calls b).2 !! ip
  = match last (filter (λ call, call.1 = ip) calls).*2 with
    | Some ts => Some ts
    | None => snd <$> b !! ip
    end.
Proof.
  induction calls as [|[ip' t] calls IH]; intros b; [done|].
  cbn [rate_limit_calls].
  destruct (decide (ip' = ip)) as [->|Hne].
  - rewrite filter_cons_True by done. rewrite fmap_cons, last_cons. cbn [snd].
    specialize (IH (rate_limit_allow t ip b).2).
    assert (snd <$> (rate_limit_allow t ip b).2 !! ip = Some t) as Hstamp.
    { rewrite rate_limit_allow_refilled.
      destruct (Qlt_le_dec _ _); cbn [snd]; by rewrite lookup_insert_eq. }
    rewrite Hstamp in IH.
    destruct (rate_limit_allow t ip b) as [ok b1]. cbn [snd] in IH.
    destruct (rate_limit_calls calls b1) as [oks b2]. cbn [snd] in *.
    rewrite IH. by destruct (last _).
  - rewrite filter_cons_False by done.
    specialize (IH (rate_limit_allow t ip' b).2).
    rewrite (rate_limit_allow_other t ip' ip b Hne) in IH.
    destruct (rate_limit_allow t ip' b) as [ok b1]. cbn [snd] in IH.
    destruct (rate_limit_calls calls b1) as [oks b2]. exact IH.
Qed.

Lemma rate_limit_calls_same_bucket (ip : pystr) (calls : list (pystr * Q)) :
  ∀ b b' : buckets,
  b !! ip = b' !! ip →
  (rate_limit_calls calls b).2 !! ip
  = (rate_limit_calls (filter (λ call, call.1 = ip) calls) b').2 !! ip.
Proof.
  induction calls as [|[ip' t] calls IH]; intros b b' Hsame; [done|].
  cbn [rate_limit_calls].
  destruct (decide (ip' = ip)) as [->|Hne].
  - rewrite filter_cons_True by done. cbn [rate_limit_calls].
    destruct (rate_limit_allow_same_bucket t ip b b' Hsame) as [_ Hnext].
    destruct (rate_limit_allow t ip b) as [ok b1].
    destruct (rate_limit_allow t ip b') as [ok' b1'].
    cbn [snd] in Hnext. specialize (IH b1 b1' Hnext).
    destruct (rate_limit_calls calls b1) as [oks b2].
    by destruct (rate_limit_calls (filter _ calls) b1') as [oks' b2'].
  - rewrite filter_cons_False by done.
    pose proof (rate_limit_allow_other t ip' ip b Hne) as Hkeep.
    destruct (rate_limit_allow t ip' b) as [ok b1]. cbn [snd] in Hkeep.
    specialize (IH b1 b'). rewrite Hkeep in IH. specialize (IH Hsame).
    by destruct (rate_limit_calls calls b1) as [oks b2].
Qed.

End rate_limiter_traffic.

(** X7. Clients do not share tokens: the answers a client gets and the bucket
    it is left with are those of its own calls alone, whatever calls of
    other clients come in between. *)
Theorem rate_limit_clients_isolated
    (ip : pystr) (calls : list (pystr * Q)) (_BUCKETS : buckets) :
  answers_to ip calls (rate_limit_calls calls _BUCKETS).1
  = (rate_limit_calls (filter (λ call, call.1 = ip) calls) _BUCKETS).1
  ∧ (rate_limit_calls calls _BUCKETS).2 !! ip
    = (rate_limit_calls (filter (λ call, call.1 = ip) calls) _BUCKETS).2 !! ip.
Proof.
  split.
  - by apply rate_limit_calls_other_clients.
  - by apply rate_limit_calls_same_bucket.
Qed.

(** X8. The table only grows: after any calls its keys are the keys it had and
    every client that has called, allowed or denied. *)
Theorem rate_limit_table_keys (calls : list (pystr * Q)) (_BUCKETS : buckets) :
  dom (rate_limit_calls calls _BUCKETS).2
  = dom _BUCKETS ∪ list_to_set calls.*1.
Proof.
  revert _BUCKETS. induction calls as [|[ip t] calls IH]; intros b.
  - cbn [rate_limit_calls snd fmap list_fmap list_to_set].
    by rewrite (right_id_L ∅ (∪)).
  - cbn [rate_limit_calls].
    assert (dom (rate_limit_allow t ip b).2 = {[ip]} ∪ dom b) as Hdom.
    { rewrite rate_limit_allow_refilled.
      destruct (Qlt_le_dec _ _); cbn [snd]; apply dom_insert_L. }
    destruct (rate_limit_allow t ip b) as [ok b1]. cbn [snd] in Hdom.
    specialize (IH b1).
    destruct (rate_limit_calls calls b1) as [oks b2]. cbn [snd] in *.
    rewrite IH, Hdom, fmap_cons, list_to_set_cons. cbn [fst].
    rewrite (comm_L (∪) {[ip]} (dom b)). by rewrite (assoc_L (∪)).
Qed.

(** X4. From the empty table, over clock readings that never decrease: a call
    is allowed whenever its client has not called before, or called last
    at least one second earlier. *)
Theorem rate_limit_allows_after_wait
    (ip : pystr) (before : list (pystr * Q)) (now : Q) :
  nondecreasing (before.*2 ++ [now]) →
  (∀ ts, last (filter (λ call, call.1 = ip) before).*2 = Some ts →
         (ts + 1 <= now)%Q) →
  (rate_limit_allow now ip (rate_limit_calls before ∅).2).1 = true.
Proof.
  intros Hsorted Hwait.
  apply StronglySorted_app in Hsorted as (Hbelow & Hsorted & _).
  assert (buckets_inv now (rate_limit_calls before ∅).2) as Hinv.
  { apply rate_limit_calls_from_empty_inv; [done|].
    apply Forall_forall. intros t Ht. apply Hbelow; [done|]. by left. }
  pose proof (bucket_stamp ip before ∅) as Hstamp.
  rewrite rate_limit_allow_refilled.
  destruct (Qlt_le_dec _ _) as [Hdeny|]; [exfalso|done].
  unfold refilled in Hdeny.
  destruct ((rate_limit_calls before ∅).2 !! ip) as [[tokens ts]|] eqn:Hlook;
    cbn [default] in Hdeny.
  - destruct (Hinv _ _ _ Hlook) as [[Htokens _] _]. cbn [fst] in Htokens.
    cbn [fmap option_fmap option_map snd] in Hstamp.
    destruct (last _) as [ts'|] eqn:Hlast.
    + injection Hstamp as ->. specialize (Hwait _ eq_refl).
      destruct (Q.min_spec TOKENS_PER_MIN
                  (tokens + (now - ts') * (TOKENS_PER_MIN / 60)))
        as [[_ Hmin]|[_ Hmin]]; rewrite Hmin in Hdeny;
        [|rewrite refill_rate in Hdeny]; unfold TOKENS_PER_MIN in *;
        apply Qlt_not_le in Hdeny; apply Hdeny; lra.
    + by rewrite lookup_empty in Hstamp.
  - destruct (Q.min_spec TOKENS_PER_MIN
                (TOKENS_PER_MIN + (now - now) * (TOKENS_PER_MIN / 60)))
      as [[_ Hmin]|[_ Hmin]]; rewrite Hmin in Hdeny;
      [|rewrite refill_rate in Hdeny]; unfold TOKENS_PER_MIN in *;
      apply Qlt_not_le in Hdeny; apply Hdeny; lra.
Qed.

Lemma rate_limit_allows_after_wait_witness :
  let before := [(str "10.0.0.1", 0%Q); (str "10.0.0.1", (1 # 10)%Q);
                 (str "10.0.0.2", (1 # 2)%Q)] in
  nondecreasing (before.*2 ++ [2%Q])
  ∧ last (filter (λ call, call.1 = str "10.0.0.1") before).*2 = Some (1 # 10)%Q
  ∧ (rate_limit_allow 2 (str "10.0.0.1") (rate_limit_calls before ∅).2).1 = true.
Proof.
  intros before.
  assert (nondecreasing (before.*2 ++ [2%Q])) as Hsorted.
  { repeat (constructor; [|repeat (constructor; [unfold Qle; simpl; lia|]); constructor]).
    constructor. }
  split_and!; [exact Hsorted|reflexivity|].
  apply (rate_limit_allows_after_wait (str "10.0.0.1") before 2%Q Hsorted).
  intros ts Hts. vm_compute in Hts. injection Hts as <-.
  unfold Qle. simpl. lia.
Defined.

(** ** Further properties of the per-question consumer *)

Section consumer_more.

Lemma finalize_bounds (chunks : list pystr) (done : bool) :
  0 < length (finalize chunks done) ≤ MAX_CHARS.
Proof.
  unfold finalize.
  set (final := take MAX_CHARS (concat chunks)).
  assert (length final ≤ MAX_CHARS) as Hfinal
    by (unfold final; rewrite length_take; lia).
  destruct (bool_decide (length final = MAX_CHARS) && negb done) eqn:Hcut.
  - apply andb_prop in Hcut as [Hlen _]. apply bool_decide_eq_true in Hlen.
    rewrite bool_decide_false.
    + unfold drop_last. rewrite length_app, length_take, marker_length, Hlen.
      rewrite Nat.min_l by lia. unfold MAX_CHARS. lia.
    + intros Hnil. apply (f_equal length) in Hnil.
      rewrite length_app, marker_length in Hnil. simpl in Hnil. lia.
  - destruct (bool_decide (final = [])) eqn:Hnil.
    + change (length (str "Request timed out")) with 17. unfold MAX_CHARS. lia.
    + apply bool_decide_eq_false in Hnil.
      destruct final; [done|]. simpl in *. lia.
Qed.

(** Chunk lists with the same text are treated alike by the loop. *)
Lemma collect_same_text (script : list get_result) :
  ∀ chunks1 chunks2 : list pystr,
  concat chunks1 = concat chunks2 →
  match collect script chunks1, collect script chunks2 with
  | inl _, inl _ => True
  | inr (taken1, done1), inr (taken2, done2) =>
      concat taken1 = concat taken2 ∧ done1 = done2
  | _, _ => False
  end.
Proof.
  induction script as [|got script IH]; intros chunks1 chunks2 Hsame; [done|].
  simpl. rewrite Hsame.
  case_decide; [|done].
  destruct got as [[item|]| |]; try done.
  apply IH. by rewrite !concat_app, Hsame.
Qed.

Lemma collect_raises (script : list get_result) :
  ∀ chunks : list pystr,
  collect script chunks = inl ValueError →
  ∃ fragments rest,
    script = arrivals fragments ++ NegativeTimeout :: rest
    ∧ length (concat (chunks ++ fragments)) < MAX_CHARS.
Proof.
  induction script as [|got script IH]; intros chunks Hraise; [done|].
  simpl in Hraise. case_decide as Hroom; [|done].
  destruct got as [[item|]| |]; try done.
  - destruct (IH _ Hraise) as (fragments & rest & -> & Hlen).
    exists (item :: fragments), rest. split; [done|].
    by rewrite <- app_assoc in Hlen.
  - exists [], script. by rewrite app_nil_r.
Qed.

End consumer_more.

Lemma handle_question_answer_bounds (script : list get_result) (a : answer) :
  handle_question script = inr a →
  0 < length (content a) ≤ MAX_CHARS.
Proof.
  unfold handle_question. intros Hanswer.
  destruct (collect script []) as [raised|[chunks finished]]; [done|].
  injection Hanswer as <-. apply finalize_bounds.
Qed.

(** X9. Whatever the rounds, an answer's content is never empty and never
    longer than [MAX_CHARS] characters. *)
Theorem handle_question_content_bounds (script : list get_result) (a : answer) :
  handle_question script = inr a →
  0 < length (content a) ≤ MAX_CHARS.
Proof.
  unfold handle_question. intros Hanswer.
  destruct (collect script []) as [raised|[chunks finished]]; [done|].
  injection Hanswer as <-. apply finalize_bounds.
Qed.

Lemma handle_question_content_bounds_witness :
  handle_question [Item (Some (replicate 700 97%N)); Item None]
  = inr {| content := replicate 497 97%N ++ str "..."; complete := false |}
  ∧ 0 < length (replicate 497 97%N ++ str "...") ≤ MAX_CHARS.
Proof.
  assert (handle_question [Item (Some (replicate 700 97%N)); Item None]
          = inr {| content := replicate 497 97%N ++ str "..."; complete := false |})
    as Hanswer by (by vm_compute).
  split; [exact Hanswer|].
  exact (handle_question_content_bounds _ _ Hanswer).
Defined.

(** X10. The question goes unanswered, [q_out.get] raising [ValueError], in
    exactly one case: below the cap, after chunks only, the clock passes
    the deadline between the loop test and the call of [get]. *)
Theorem handle_question_raises_iff (script : list get_result) :
  handle_question script = inl ValueError
  ↔ ∃ fragments rest,
      script = arrivals fragments ++ NegativeTimeout :: rest
      ∧ length (concat fragments) < MAX_CHARS.
Proof.
  unfold handle_question. split.
  - intros Hraise.
    destruct (collect script []) as [[]|[chunks finished]] eqn:Hrun; [|done].
    by apply collect_raises in Hrun.
  - intros (fragments & rest & -> & Hlen).
    rewrite collect_arrivals_below by done. simpl.
    by case_decide.
Qed.

(** X11. How the text is cut into chunks does not matter: two runs in which
    the same text arrives, followed by the same rounds, give the same
    answer. *)
Theorem handle_question_chunking
    (fragments1 fragments2 : list pystr) (rest : list get_result) :
  concat fragments1 = concat fragments2 →
  handle_question (arrivals fragments1 ++ rest)
  = handle_question (arrivals fragments2 ++ rest).
Proof.
  intros Hsame.
  destruct (decide (length (concat fragments1) < MAX_CHARS)) as [Hshort|Hfull].
  - unfold handle_question.
    assert (length (concat fragments2) < MAX_CHARS) as Hshort2
      by (by rewrite <- Hsame).
    rewrite (collect_arrivals_below fragments1) by done.
    rewrite (collect_arrivals_below fragments2) by done.
    pose proof (collect_same_text rest ([] ++ fragments1) ([] ++ fragments2) Hsame)
      as Hrun.
    destruct (collect rest ([] ++ fragments1)) as [[]|[taken1 done1]],
             (collect rest ([] ++ fragments2)) as [[]|[taken2 done2]];
      cbv beta iota in Hrun; try done.
    destruct Hrun as [Htext ->]. unfold finalize. by rewrite Htext.
  - rewrite !handle_question_cap by (rewrite <- ?Hsame; lia).
    by rewrite Hsame.
Qed.

Lemma handle_question_chunking_witness :
  concat [str "ab"; str "c"] = concat [str "a"; str "bc"]
  ∧ handle_question (arrivals [str "ab"; str "c"] ++ [Empty])
    = handle_question (arrivals [str "a"; str "bc"] ++ [Empty]).
Proof.
  split; [reflexivity|].
  exact (handle_question_chunking [str "ab"; str "c"] [str "a"; str "bc"] [Empty]
           eq_refl).
Defined.

(** ** Further properties of [llm_stream] *)

Section llm_stream_more.

Lemma put_chunk_of (d : data) (out_queue : list (option pystr)) :
  match message_content d with
  | Some chunk =>
      if bool_decide (chunk ≠ []) then put (Some chunk) out_queue else out_queue
  | None => out_queue
  end = out_queue ++ (Some <$> chunk_of d).
Proof.
  unfold chunk_of, put. destruct (message_content d) as [chunk|].
  - case_bool_decide; [done|by rewrite app_nil_r].
  - by rewrite app_nil_r.
Qed.

Lemma chunk_of_nonempty (d : data) : Forall (λ chunk, chunk ≠ []) (chunk_of d).
Proof.
  unfold chunk_of. destruct (message_content d) as [chunk|]; [|done].
  case_bool_decide; [|done]. by repeat constructor.
Qed.

Lemma iter_lines_shape (lines : body) :
  ∀ out_queue, ∃ chunks,
    (iter_lines lines out_queue).2 = out_queue ++ (Some <$> chunks)
    ∧ Forall (λ chunk, chunk ≠ []) chunks.
Proof.
  induction lines as [|err|l more IH]; intros out_queue.
  - exists []. by rewrite app_nil_r.
  - exists []. by rewrite app_nil_r.
  - destruct l as [|[err|d]]; cbn [iter_lines].
    + apply IH.
    + exists []. by rewrite app_nil_r.
    + rewrite put_chunk_of. destruct (done d).
      * exists (chunk_of d). split; [done|apply chunk_of_nonempty].
      * destruct (IH (out_queue ++ (Some <$> chunk_of d))) as (chunks & -> & Hne).
        exists (chunk_of d ++ chunks). split.
        -- by rewrite fmap_app, app_assoc.
        -- apply Forall_app. split; [apply chunk_of_nonempty|done].
Qed.

Lemma iter_lines_clean (lines : body) (chunks : list pystr) :
  body_clean lines chunks →
  ∀ out_queue, iter_lines lines out_queue = (None, out_queue ++ (Some <$> chunks)).
Proof.
  induction 1 as [|d more Hdone|more chunks _ IH|d more chunks Hdone _ IH];
    intros out_queue; cbn [iter_lines].
  - by rewrite app_nil_r.
  - by rewrite put_chunk_of, Hdone.
  - apply IH.
  - by rewrite put_chunk_of, Hdone, IH, fmap_app, app_assoc.
Qed.

Lemma llm_stream_fault_queue
    (post : request → response) (prompt : pystr)
    (out_queue : list (option pystr)) (chunks : list pystr) (err : raised) :
  backend_fault (post (chat_request prompt)) chunks err →
  is_Exception err = true →
  (llm_stream post prompt out_queue).2
  = out_queue ++ (Some <$> chunks ++ [str "[llm error] " ++ text err]) ++ [None].
Proof.
  intros Hfault Hexc. unfold llm_stream.
  destruct Hfault as [err|err lines|lines chunks err Hbody].
  - rewrite Hexc. unfold put. by rewrite <- app_assoc.
  - rewrite Hexc. unfold put. by rewrite <- app_assoc.
  - rewrite (iter_lines_fault _ _ _ Hbody), Hexc. unfold put. cbn [snd].
    by rewrite fmap_app, <- !app_assoc.
Qed.

Lemma delivered_chunks (chunks : list pystr) :
  delivered ((Some <$> chunks) ++ [None]) = arrivals chunks ++ [Item None].
Proof.
  unfold delivered, arrivals. rewrite fmap_app, <- list_fmap_compose. done.
Qed.

End llm_stream_more.

(** X12. Whatever the backend does, and also when something propagates out of
    [llm_stream]: what was in the queue stays, only chunks that are not
    empty are added, and the end marker [None] is put once, last. *)
Theorem llm_stream_queue_shape
    (post : request → response) (prompt : pystr) (out_queue : list (option pystr)) :
  ∃ chunks,
    (llm_stream post prompt out_queue).2 = out_queue ++ (Some <$> chunks) ++ [None]
    ∧ Forall (λ chunk, chunk ≠ []) chunks.
Proof.
  unfold llm_stream.
  destruct (post (chat_request prompt)) as [err|[err|] lines].
  - destruct (is_Exception err); cbn [snd]; unfold put.
    + exists [str "[llm error] " ++ text err]. split; [by rewrite <- app_assoc|].
      by repeat constructor.
    + by exists [].
  - destruct (is_Exception err); cbn [snd]; unfold put.
    + exists [str "[llm error] " ++ text err]. split; [by rewrite <- app_assoc|].
      by repeat constructor.
    + by exists [].
  - destruct (iter_lines_shape lines out_queue) as (chunks & Hqueue & Hne).
    destruct (iter_lines lines out_queue) as [[err|] queue]; cbn [snd] in *; subst queue.
    + destruct (is_Exception err); cbn [snd]; unfold put.
      * exists (chunks ++ [str "[llm error] " ++ text err]). split.
        -- by rewrite fmap_app, <- !app_assoc.
        -- apply Forall_app. split; [done|]. by repeat constructor.
      * exists chunks. by rewrite <- app_assoc.
    + cbn [snd]. unfold put. exists chunks. by rewrite <- app_assoc.
Qed.

(** X13. A response without a fault: the chunks of its lines, those that are
    not empty, are put in order and then the end marker, and nothing
    propagates.  The lines end at the end of the input or at the first
    line that says [done]; what follows that line is not read. *)
Theorem llm_stream_clean
    (post : request → response) (prompt : pystr)
    (out_queue : list (option pystr)) (lines : body) (chunks : list pystr) :
  post (chat_request prompt) = Response None lines →
  body_clean lines chunks →
  llm_stream post prompt out_queue
  = (None, out_queue ++ (Some <$> chunks) ++ [None]).
Proof.
  intros Hpost Hclean. unfold llm_stream.
  rewrite Hpost, (iter_lines_clean _ _ Hclean). unfold put.
  by rewrite <- app_assoc.
Qed.

Lemma llm_stream_clean_witness :
  let lines := Line (Json (inr (Data (Some (str "Hi")) false)))
                 (Line (Json (inr (Data (Some []) false)))
                    (Line (Json (inr (Data (Some (str "!")) true)))
                       (ReadRaises (Raised true (str "reset"))))) in
  body_clean lines [str "Hi"; str "!"]
  ∧ llm_stream (λ _, Response None lines) (str "hello") []
    = (None, [Some (str "Hi"); Some (str "!"); None]).
Proof.
  intros lines.
  assert (body_clean lines [str "Hi"; str "!"]) as Hclean.
  { apply (clean_after_data (Data (Some (str "Hi")) false) _ [str "!"] eq_refl).
    apply (clean_after_data (Data (Some []) false) _ [str "!"] eq_refl).
    apply (clean_done (Data (Some (str "!")) true) _ eq_refl). }
  split; [exact Hclean|].
  exact (llm_stream_clean (λ _, Response None lines) (str "hello") [] lines
           [str "Hi"; str "!"] eq_refl Hclean).
Defined.

(** X14. The worker and the consumer together, every item arriving before the
    deadline.  A fault of the backend is answered with text: the chunks
    put before it followed by the error text; complete when the whole is
    shorter than [MAX_CHARS], and otherwise cut and marked like any
    text. *)
Theorem backend_fault_is_answered
    (post : request → response) (prompt : pystr)
    (chunks : list pystr) (err : raised) :
  backend_fault (post (chat_request prompt)) chunks err →
  is_Exception err = true →
  let shown := concat chunks ++ str "[llm error] " ++ text err in
  handle_question (delivered (llm_stream post prompt []).2)
  = inr (if decide (length shown < MAX_CHARS)
         then {| content := shown; complete := true |}
         else {| content := take (MAX_CHARS - 3) shown ++ str "...";
                 complete := false |}).
Proof.
  intros Hfault Hexc shown.
  rewrite (llm_stream_fault_queue post prompt [] chunks err Hfault Hexc).
  rewrite app_nil_l, delivered_chunks.
  assert (concat (chunks ++ [str "[llm error] " ++ text err]) = shown) as Hshown.
  { rewrite concat_app. simpl. by rewrite app_nil_r. }
  case_decide as Hlen.
  - rewrite handle_question_finished by (by rewrite Hshown).
    rewrite Hshown, decide_False; [done|].
    unfold shown. intros Hnil. apply (f_equal length) in Hnil.
    rewrite !length_app in Hnil. simpl in Hnil. lia.
  - rewrite handle_question_cap by (rewrite Hshown; lia). by rewrite Hshown.
Qed.

Lemma backend_fault_is_answered_witness :
  let refused := Raised true (str "Connection refused") in
  backend_fault (PostRaises refused) [] refused
  ∧ handle_question (delivered (llm_stream (λ _, PostRaises refused) (str "hello") []).2)
    = inr {| content := str "[llm error] Connection refused"; complete := true |}.
Proof.
  intros refused.
  assert (backend_fault (PostRaises refused) [] refused) as Hfault
    by apply fault_connection.
  split; [exact Hfault|].
  exact (backend_fault_is_answered (λ _, PostRaises refused) (str "hello") []
           refused Hfault eq_refl).
Defined.

(** X15. The worker and the consumer together, every item arriving before the
    deadline, the response without a fault: the answer is the text of the
    chunks, complete when it is shorter than [MAX_CHARS] (the timeout
    phrase when there is no text at all), cut and marked otherwise. *)
Theorem backend_text_is_answered
    (post : request → response) (prompt : pystr)
    (lines : body) (chunks : list pystr) :
  post (chat_request prompt) = Response None lines →
  body_clean lines chunks →
  handle_question (delivered (llm_stream post prompt []).2)
  = inr (if decide (length (concat chunks) < MAX_CHARS)
         then {| content := if decide (concat chunks = [])
                            then str "Request timed out" else concat chunks;
                 complete := true |}
         else {| content := take (MAX_CHARS - 3) (concat chunks) ++ str "...";
                 complete := false |}).
Proof.
  intros Hpost Hclean. unfold llm_stream.
  rewrite Hpost, (iter_lines_clean _ _ Hclean). unfold put. cbn [snd].
  rewrite app_nil_l, delivered_chunks.
  case_decide as Hlen.
  - by rewrite handle_question_finished.
  - rewrite handle_question_cap by lia. done.
Qed.

Lemma backend_text_is_answered_witness :
  let lines := Line (Json (inr (Data (Some (str "Hi")) false)))
                 (Line (Json (inr (Data (Some (str "!")) true))) EndOfInput) in
  body_clean lines [str "Hi"; str "!"]
  ∧ handle_question
      (delivered (llm_stream (λ _, Response None lines) (str "hello") []).2)
    = inr {| content := str "Hi!"; complete := true |}.
Proof.
  intros lines.
  assert (body_clean lines [str "Hi"; str "!"]) as Hclean.
  { apply (clean_after_data (Data (Some (str "Hi")) false) _ [str "!"] eq_refl).
    apply (clean_done (Data (Some (str "!")) true) _ eq_refl). }
  split; [exact Hclean|].
  exact (backend_text_is_answered (λ _, Response None lines) (str "hello") lines
           [str "Hi"; str "!"] eq_refl Hclean).
Defined.

(** ** Further properties of the prompt *)

Section prompt_more.

Variable decimal_digit : N → option N.

Lemma rstrip_all (c : N) (k : nat) : rstrip c (replicate k c) = [].
Proof.
  induction k as [|k IH]; [done|].
  cbn [replicate rstrip]. rewrite IH. by rewrite N.eqb_refl.
Qed.

Lemma rstrip_trailing (c : N) (s : pystr) (k : nat) :
  rstrip c (s ++ replicate k c) = rstrip c s.
Proof.
  induction s as [|x s IH].
  - by rewrite app_nil_l, rstrip_all.
  - rewrite <- app_comm_cons. cbn [rstrip]. by rewrite IH.
Qed.

Lemma rstrip_other_end (c x : N) (s : pystr) :
  x ≠ c → rstrip c (s ++ [x]) = s ++ [x].
Proof.
  intros Hx. induction s as [|y s IH].
  - cbn [app rstrip]. apply N.eqb_neq in Hx. by rewrite Hx.
  - rewrite <- app_comm_cons. cbn [rstrip]. rewrite IH.
    destruct (s ++ [x]) eqn:E; [by destruct s|done].
Qed.

Lemma removesuffix_app (s suffix : pystr) :
  removesuffix (s ++ suffix) suffix = s.
Proof.
  unfold removesuffix, endswith.
  destruct suffix as [|x suffix]; [by rewrite app_nil_r|].
  rewrite bool_decide_true by done.
  rewrite bool_decide_true.
  - cbn [andb]. rewrite length_app.
    by rewrite take_app_length' by lia.
  - rewrite length_app. split; [lia|].
    by rewrite drop_app_length' by lia.
Qed.



End prompt_more.


(** X17. A name without a backslash is left as it is. *)
Theorem dns_unescape_no_backslash (decimal_digit : N → option N) (label : pystr) :
  92%N ∉ label →
  dns_unescape decimal_digit label = label.
Proof.
  induction label as [|c tail IH]; intros Hno; [done|].
  apply not_elem_of_cons in Hno as [Hc Htail].
  rewrite dns_unescape_plain by done. by rewrite IH.
Qed.

Lemma dns_unescape_no_backslash_witness :
  (92%N ∉ str "what is dns")
  ∧ dns_unescape (λ _, None) (str "what is dns") = str "what is dns".
Proof.
  assert (92%N ∉ str "what is dns") as Hno.
  { intros Hin. vm_compute in Hin.
    repeat (apply elem_of_cons in Hin as [Hin|Hin]; [discriminate|]).
    by apply elem_of_nil in Hin. }
  split; [exact Hno|].
  exact (dns_unescape_no_backslash (λ _, None) (str "what is dns") Hno).
Defined.

(** X18. A name under the serving domain, written with any number of trailing
    dots: the prompt is the instruction followed by what is in front of
    the domain, unescaped.  The domain is removed once, from the end, and
    before the name is unescaped. *)
Theorem dns_safe_prompt_in_domain
    (decimal_digit : N → option N) (name : pystr) (dots : nat) :
  dns_safe_prompt decimal_digit (name ++ DOMAIN ++ replicate dots 46%N)
  = instruction ++ dns_unescape decimal_digit name.
Proof.
  unfold dns_safe_prompt, instruction.
  rewrite (app_assoc name), rstrip_trailing.
  change DOMAIN with (str ".mashb1t.d" ++ [101%N]) at 1.
  rewrite (app_assoc name), rstrip_other_end by done.
  rewrite <- (app_assoc name).
  change (str ".mashb1t.d" ++ [101%N]) with DOMAIN.
  rewrite removesuffix_app. by rewrite <- !app_assoc.
Qed.

(** ** Properties of [DNSHandler.handle] *)

Section handle_facts.

Variable QTYPE : N → pystr.
Variable QTYPE_TXT : N.
Variable decimal_digit : N → option N.
Variable rounds : nat → pystr → list get_result.

Lemma range_from_length (count start step : nat) :
  length (range_from count start step) = count.
Proof.
  revert start. induction count as [|count IH]; intros start; [done|].
  cbn [range_from length]. by rewrite IH.
Qed.

Lemma split_txt_count (text : pystr) :
  0 < length text ≤ MAX_CHARS → 1 ≤ length (split_txt text) ≤ 2.
Proof.
  unfold MAX_CHARS. intros Hlen.
  rewrite split_txt_chunks by (intros ->; simpl in Hlen; lia).
  rewrite length_fmap. unfold range. rewrite range_from_length. split.
  - apply Nat.div_le_lower_bound; lia.
  - apply Nat.lt_succ_r, Nat.Div0.div_lt_upper_bound; lia.
Qed.

Lemma split_txt_joined (text : pystr) : concat (split_txt text) = text.
Proof.
  destruct (decide (text = [])) as [->|Hne]; [reflexivity|].
  rewrite split_txt_chunks by done. unfold range.
  rewrite range_from_slices, drop_0.
  apply take_ge, range_covers.
Qed.

Lemma answer_questions_answers (qs : list question) :
  ∀ (i : nat) (rrs : list rr),
  answer_questions QTYPE QTYPE_TXT decimal_digit rounds i qs = inr rrs →
  rname <$> rrs = qname <$> filter (λ q, QTYPE (qtype q) = str "TXT") qs
  ∧ Forall (txt_record QTYPE_TXT) rrs
  ∧ Forall rdata_fits rrs.
Proof.
  induction qs as [|q qs IH]; intros i rrs Hrun.
  - injection Hrun as <-. by split_and!.
  - cbn [answer_questions] in Hrun. case_bool_decide as Htxt.
    + rewrite filter_cons_False by done. by apply (IH (S i)).
    + rewrite filter_cons_True by done.
      destruct (handle_question _) as [|a] eqn:Hanswer; [done|].
      destruct (answer_questions _ _ _ _ (S i) qs) as [|rrs'] eqn:Hrest; [done|].
      injection Hrun as <-.
      destruct (IH _ _ Hrest) as (Hnames & Hrecords & Hfit).
      split_and!.
      * by rewrite !fmap_cons, Hnames.
      * by constructor.
      * constructor; [|done].
        pose proof (handle_question_answer_bounds _ _ Hanswer) as Hbounds.
        unfold rdata_fits. cbn [rdata]. split_and!.
        -- by apply split_txt_count.
        -- by apply split_txt_count.
        -- apply Forall_forall. intros segment. apply split_txt_segment_chars.
        -- rewrite split_txt_joined. lia.
        -- rewrite split_txt_joined. lia.
Qed.

Lemma answer_questions_raises (qs : list question) :
  ∀ i : nat,
  answer_questions QTYPE QTYPE_TXT decimal_digit rounds i qs = inl ValueError
  ↔ ∃ k q, qs !! k = Some q
      ∧ QTYPE (qtype q) = str "TXT"
      ∧ handle_question (rounds (i + k) (dns_safe_prompt decimal_digit (qname q)))
        = inl ValueError.
Proof.
  induction qs as [|q qs IH]; intros i.
  - split; [done|]. by intros (k & q & Hk & _).
  - cbn [answer_questions]. case_bool_decide as Htxt.
    + rewrite IH. split.
      * intros (k & q' & Hk & Hq & Hraise). exists (S k), q'.
        split_and!; [done|done|]. by rewrite <- Nat.add_succ_comm.
      * intros ([|k] & q' & Hk & Hq & Hraise).
        -- injection Hk as <-. done.
        -- exists k, q'. split_and!; [done|done|]. by rewrite Nat.add_succ_comm.
    + destruct (handle_question (rounds i _)) as [[]|a] eqn:Hanswer.
      * split; [|done]. intros _. exists 0, q.
        split_and!; [done|done|]. by rewrite Nat.add_0_r.
      * destruct (answer_questions _ _ _ _ (S i) qs) as [[]|rrs] eqn:Hrest.
        -- split; [|done]. intros _.
           apply IH in Hrest as (k & q' & Hk & Hq & Hraise).
           exists (S k), q'. split_and!; [done|done|].
           by rewrite <- Nat.add_succ_comm.
        -- split; [done|].
           intros ([|k] & q' & Hk & Hq & Hraise).
           ++ injection Hk as <-. rewrite Nat.add_0_r in Hraise. congruence.
           ++ assert (answer_questions QTYPE QTYPE_TXT decimal_digit rounds (S i) qs
                      = inl ValueError) as Hbad; [|congruence].
              apply IH. exists k, q'. split_and!; [done|done|].
              by rewrite Nat.add_succ_comm.
Qed.

End handle_facts.

(** X19. A reply echoes the id of the message, carries the first question only
    in its question section, and has one answer for every question whose
    type is TXT, in the order of the questions and under their names, of
    type TXT, class 1 and time to live [TTL]; questions of other types get
    no answer. *)
Theorem handle_reply
    (QTYPE : N → pystr) (QTYPE_TXT : N) (decimal_digit : N → option N)
    (rounds : nat → pystr → list get_result)
    (req : dns_record) (src_ip : pystr) (now : Q) (_BUCKETS : buckets)
    (reply : dns_reply) :
  (handle QTYPE QTYPE_TXT decimal_digit rounds (Some req) src_ip now _BUCKETS).1
  = inr (Some reply) →
  reply_id reply = header_id req
  ∧ (qr reply, aa reply, ra reply) = (1, 1, 0)%N
  ∧ reply_questions reply = take 1 (questions req)
  ∧ rname <$> answers reply
    = qname <$> filter (λ q, QTYPE (qtype q) = str "TXT") (questions req)
  ∧ Forall (txt_record QTYPE_TXT) (answers reply).
Proof.
  unfold handle. intros Hreply.
  destruct (rate_limit_allow now src_ip _BUCKETS) as [[] b']; [|done].
  cbn [negb] in Hreply.
  destruct (questions req) as [|first qs] eqn:Hqs; [done|].
  rewrite <- Hqs in *.
  destruct (answer_questions _ _ _ _ 0 (questions req)) as [|rrs] eqn:Hrun; [done|].
  injection Hreply as <-. cbn.
  destruct (answer_questions_answers _ _ _ _ _ _ _ Hrun) as (Hnames & Hrecords & _).
  rewrite Hqs at 1. by split_and!.
Qed.

(** X20. Every answer of a reply fits a TXT record: its data is one or two
    strings, none longer than 255 characters, with between 1 and
    [MAX_CHARS] characters in all. *)
Theorem handle_rdata_fits
    (QTYPE : N → pystr) (QTYPE_TXT : N) (decimal_digit : N → option N)
    (rounds : nat → pystr → list get_result)
    (req : dns_record) (src_ip : pystr) (now : Q) (_BUCKETS : buckets)
    (reply : dns_reply) :
  (handle QTYPE QTYPE_TXT decimal_digit rounds (Some req) src_ip now _BUCKETS).1
  = inr (Some reply) →
  Forall rdata_fits (answers reply).
Proof.
  unfold handle. intros Hreply.
  destruct (rate_limit_allow now src_ip _BUCKETS) as [[] b']; [|done].
  cbn [negb] in Hreply.
  destruct (questions req) as [|first qs] eqn:Hqs; [done|].
  rewrite <- Hqs in *.
  destruct (answer_questions _ _ _ _ 0 (questions req)) as [|rrs] eqn:Hrun; [done|].
  injection Hreply as <-. cbn.
  by destruct (answer_questions_answers _ _ _ _ _ _ _ Hrun) as (_ & _ & Hfit).
Qed.

(** X21. The handler returns without a reply in exactly three cases: the rate
    limiter denies the sender, the message does not parse, or it has no
    question.  And whatever becomes of the message, the table is left as
    by one call of [rate_limit_allow] for the sender: a message is charged
    once, before it is parsed, however many questions it has. *)
Theorem handle_silent_iff
    (QTYPE : N → pystr) (QTYPE_TXT : N) (decimal_digit : N → option N)
    (rounds : nat → pystr → list get_result)
    (parsed : option dns_record) (src_ip : pystr) (now : Q) (_BUCKETS : buckets) :
  ((handle QTYPE QTYPE_TXT decimal_digit rounds parsed src_ip now _BUCKETS).1
   = inr None
   ↔ (rate_limit_allow now src_ip _BUCKETS).1 = false
     ∨ parsed = None
     ∨ ∃ req, parsed = Some req ∧ questions req = [])
  ∧ (handle QTYPE QTYPE_TXT decimal_digit rounds parsed src_ip now _BUCKETS).2
    = (rate_limit_allow now src_ip _BUCKETS).2.
Proof.
  unfold handle.
  destruct (rate_limit_allow now src_ip _BUCKETS) as [[] b']; cbn [negb fst snd].
  - destruct parsed as [req|]; [|by split; [split; auto|]].
    destruct (questions req) as [|first qs] eqn:Hqs.
    + split; [|done]. split; [|done]. intros _. right. right. by exists req.
    + destruct (answer_questions _ _ _ _ 0 (first :: qs)) as [|rrs]; cbn [fst snd].
      * split; [|done]. split; [done|].
        intros [|[|(req' & [= <-] & Hnone)]]; congruence.
      * split; [|done]. split; [done|].
        intros [|[|(req' & [= <-] & Hnone)]]; congruence.
  - split; [|done]. split; auto.
Qed.

(** X22. No reply is sent, [ValueError] propagating out of the handler, exactly
    when the sender is allowed and the wait for some question of type TXT
    ends in that error: the answers already made for other questions of
    the message are lost with it. *)
Theorem handle_raises_iff
    (QTYPE : N → pystr) (QTYPE_TXT : N) (decimal_digit : N → option N)
    (rounds : nat → pystr → list get_result)
    (req : dns_record) (src_ip : pystr) (now : Q) (_BUCKETS : buckets) :
  (handle QTYPE QTYPE_TXT decimal_digit rounds (Some req) src_ip now _BUCKETS).1
  = inl ValueError
  ↔ (rate_limit_allow now src_ip _BUCKETS).1 = true
    ∧ ∃ k q, questions req !! k = Some q
        ∧ QTYPE (qtype q) = str "TXT"
        ∧ handle_question (rounds k (dns_safe_prompt decimal_digit (qname q)))
          = inl ValueError.
Proof.
  unfold handle.
  destruct (rate_limit_allow now src_ip _BUCKETS) as [[] b']; cbn [negb fst snd];
    [|by split; [|intros [? _]]].
  pose proof (answer_questions_raises QTYPE QTYPE_TXT decimal_digit rounds
                (questions req) 0) as Hraises.
  destruct (questions req) as [|first qs] eqn:Hqs.
  - split; [done|]. by intros (_ & k & q & Hk & _).
  - destruct (answer_questions _ _ _ _ 0 (first :: qs)) as [[]|rrs]; cbn [fst].
    + split; [|done]. intros _. split; [done|]. by apply Hraises.
    + split; [done|]. intros [_ Hsome]. apply Hraises in Hsome. done.
Qed.

Lemma sample_handled :
  (handle sample_QTYPE 16 sample_digit sample_rounds (Some sample_message)
     (str "10.0.0.1") 0%Q ∅).1
  = inr (Some sample_reply).
Proof. by vm_compute. Qed.

Lemma handle_reply_witness :
  (handle sample_QTYPE 16 sample_digit sample_rounds (Some sample_message)
     (str "10.0.0.1") 0%Q ∅).1
  = inr (Some sample_reply)
  ∧ rname <$> answers sample_reply
    = qname <$> filter (λ q, sample_QTYPE (qtype q) = str "TXT")
                  (questions sample_message).
Proof.
  split; [exact sample_handled|].
  exact (proj1 (proj2 (proj2 (proj2
    (handle_reply sample_QTYPE 16 sample_digit sample_rounds sample_message
       (str "10.0.0.1") 0%Q ∅ sample_reply sample_handled))))).
Defined.

Lemma handle_rdata_fits_witness :
  (handle sample_QTYPE 16 sample_digit sample_rounds (Some sample_message)
     (str "10.0.0.1") 0%Q ∅).1
  = inr (Some sample_reply)
  ∧ Forall rdata_fits (answers sample_reply).
Proof.
  split; [exact sample_handled|].
  exact (handle_rdata_fits sample_QTYPE 16 sample_digit sample_rounds sample_message
           (str "10.0.0.1") 0%Q ∅ sample_reply sample_handled).
Defined.

(** ** The refill over time *)

(** X5. From the empty table, over clock readings that never decrease: a
    client whose last call was at least 60 seconds ago finds its bucket
    full, and its call leaves [TOKENS_PER_MIN - 1] tokens. *)
Theorem rate_limit_full_after_minute
    (ip : pystr) (before : list (pystr * Q)) (ts now : Q) :
  nondecreasing (before.*2 ++ [now]) →
  last (filter (λ call, call.1 = ip) before).*2 = Some ts →
  (ts + 60 <= now)%Q →
  ∃ tokens,
    (rate_limit_allow now ip (rate_limit_calls before ∅).2).2 !! ip
    = Some (tokens, now)
    ∧ (tokens == TOKENS_PER_MIN - 1)%Q.
Proof.
  intros Hsorted Hlast Hidle.
  apply StronglySorted_app in Hsorted as (Hbelow & Hsorted & _).
  assert (buckets_inv now (rate_limit_calls before ∅).2) as Hinv.
  { apply rate_limit_calls_from_empty_inv; [done|].
    apply Forall_forall. intros t Ht. apply Hbelow; [done|]. by left. }
  pose proof (bucket_stamp ip before ∅) as Hstamp. rewrite Hlast in Hstamp.
  destruct ((rate_limit_calls before ∅).2 !! ip) as [[tokens ts']|] eqn:Hlook;
    [|done].
  cbn [fmap option_fmap option_map snd] in Hstamp. injection Hstamp as ->.
  destruct (Hinv _ _ _ Hlook) as [[Htokens _] _]. cbn [fst] in Htokens.
  assert (refilled now (Some (tokens, ts)) == TOKENS_PER_MIN)%Q as Hfull.
  { unfold refilled. cbn [default].
    destruct (Q.min_spec TOKENS_PER_MIN
                (tokens + (now - ts) * (TOKENS_PER_MIN / 60)))
      as [[_ Hmin]|[Hle Hmin]]; [done|].
    rewrite Hmin. rewrite refill_rate in Hle |- *.
    unfold TOKENS_PER_MIN in *. lra. }
  rewrite rate_limit_allow_refilled, Hlook.
  destruct (Qlt_le_dec _ _) as [Hdeny|_]; cbn [snd]; rewrite lookup_insert_eq.
  - exfalso. rewrite Hfull in Hdeny. unfold TOKENS_PER_MIN in Hdeny. lra.
  - eexists. split; [done|]. by rewrite Hfull.
Qed.

Lemma rate_limit_full_after_minute_witness :
  let before := [(str "10.0.0.1", 0%Q); (str "10.0.0.1", 1%Q);
                 (str "10.0.0.2", 30%Q)] in
  nondecreasing (before.*2 ++ [61%Q])
  ∧ ∃ tokens,
      (rate_limit_allow 61 (str "10.0.0.1") (rate_limit_calls before ∅).2).2
        !! str "10.0.0.1" = Some (tokens, 61%Q)
      ∧ (tokens == TOKENS_PER_MIN - 1)%Q.
Proof.
  intros before.
  assert (nondecreasing (before.*2 ++ [61%Q])) as Hsorted.
  { repeat (constructor; [|repeat (constructor; [unfold Qle; simpl; lia|]); constructor]).
    constructor. }
  split; [exact Hsorted|].
  apply (rate_limit_full_after_minute (str "10.0.0.1") before 1%Q 61%Q Hsorted);
    [reflexivity|].
  unfold Qle. simpl. lia.
Defined.
